(** * TRL validation dashboard: the rule catalog of [trl_streamlit.py]

    The program holds a dictionary [checks] from rule names to a description
    and a SQL query over the table [dbo.co_trl], and a loop that runs the
    selected queries.  The queries are embedded as functions over a table
    given as a list of rows (a bag: SQL tables have no row identity), with
    SQL's three-valued logic written out.  The window function of the
    "Priority Violation" query is embedded twice: as the relation of all the
    numberings an engine may produce, and as one executable numbering. *)

From Stdlib Require Import Ascii.
From stdpp Require Import base decidable option numbers list strings sorting.

Set Warnings "-clear-no-such-hyp".

Open Scope Z_scope.

(** ** SQL values and three-valued logic *)

Module Sql.

(** A truth value of SQL: [None] is UNKNOWN. *)
Definition tri : Type := option bool.

Definition TRUE : tri := Some true.
Definition FALSE : tri := Some false.
Definition UNKNOWN : tri := None.

Definition and3 (a b : tri) : tri :=
  match a, b with
  | Some false, _ | _, Some false => FALSE
  | Some true, Some true => TRUE
  | _, _ => UNKNOWN
  end.

Definition or3 (a b : tri) : tri :=
  match a, b with
  | Some true, _ | _, Some true => TRUE
  | Some false, Some false => FALSE
  | _, _ => UNKNOWN
  end.

(** [a = b] and [a != b] on nullable values. *)
Definition eq3 {A} `{EqDecision A} (a b : option A) : tri :=
  match a, b with
  | Some x, Some y => Some (bool_decide (x = y))
  | _, _ => UNKNOWN
  end.

Definition neq3 {A} `{EqDecision A} (a b : option A) : tri :=
  match a, b with
  | Some x, Some y => Some (bool_decide (x ≠ y))
  | _, _ => UNKNOWN
  end.

(** [a > b] on nullable integers. *)
Definition gt3 (a b : option Z) : tri :=
  match a, b with
  | Some x, Some y => Some (bool_decide (y < x))
  | _, _ => UNKNOWN
  end.

Definition is_null {A} (a : option A) : tri :=
  match a with Some _ => FALSE | None => TRUE end.

Definition is_not_null {A} (a : option A) : tri :=
  match a with Some _ => TRUE | None => FALSE end.

(** WHERE, ON, HAVING and CASE WHEN keep what evaluates to TRUE. *)
Definition holds (t : tri) : Prop := t = Some true.

#[global] Instance holds_dec t : Decision (holds t).
Proof. unfold holds. apply _. Defined.

(** MIN over a column: NULL on no rows. *)
Definition min_agg (l : list Z) : option Z :=
  match l with
  | [] => None
  | x :: l' => Some (foldr Z.min x l')
  end.

(** COUNT( * ). *)
Definition count_star {A} (l : list A) : Z := Z.of_nat (length l).

(** [WHERE c] *)
Definition where_ {A} (c : A → tri) (t : list A) : list A :=
  filter (λ r, holds (c r)) t.

(** [l JOIN r ON c] *)
Definition join {A B} (c : A → B → tri) (l : list A) (r : list B)
  : list (A * B) :=
  a ← l; b ← where_ (c a) r; [(a, b)].

(** The groups of [GROUP BY key]: one key per group, in order of first
    occurrence, and the rows of a group. *)
Definition group_keys {A K} `{EqDecision K} (key : A → K) (t : list A)
  : list K :=
  remove_dups (key <$> t).

Definition group {A K} `{EqDecision K} (key : A → K) (t : list A) (k : K)
  : list A :=
  filter (λ r, key r = k) t.

End Sql.

Import Sql.

Infix "&&&" := and3 (at level 40, left associativity).
Infix "|||" := or3 (at level 50, left associativity).

(** ** Character data *)

(** The comparison [=] of character data follows the collation of the
    column, which is set where the table is declared and not in the program:
    it is a parameter.  [str_eq] is that comparison on two strings that are
    not NULL; on SQL Server it disregards trailing blanks and, with most
    collations, the case of the letters. *)
Class Collation : Type := { str_eq : string → string → bool }.

(** [a = b] on nullable character data. *)
Definition eq3_str `{Collation} (a b : option string) : tri :=
  match a, b with
  | Some x, Some y => Some (str_eq x y)
  | _, _ => UNKNOWN
  end.

(** ** The table [dbo.co_trl] *)

(** Modelled from the spec: the schema of [dbo.co_trl] is not declared in the
    source.  The columns and their nullability follow the data model of the
    specification: [is_extrapolated], [rationale], [source] and
    [manual_review_quality_id] are nullable, the others are not.  The flag
    [is_extrapolated] is kept as the integer the queries compare with 0 and
    1, and [acq_date] as a number of time units. *)
Record Row : Type := mkRow {
  client_id : Z;
  reference_year : Z;
  trl_id : Z;
  is_extrapolated : option Z;
  rationale : option string;
  source : option string;
  manual_review_quality_id : option Z;
  acq_date : Z
}.

#[global] Instance Row_eq_dec : EqDecision Row.
Proof. solve_decision. Defined.

Abbreviation Table := (list Row).

Definition co_trl_columns : list string :=
  ["client_id"; "reference_year"; "trl_id"; "is_extrapolated"; "rationale";
   "source"; "manual_review_quality_id"; "acq_date"].

(** ** The queries of [checks]

    A column that is not nullable and a literal are wrapped in [Some] where
    SQL compares them. *)

(** "Invalid Non-Extrapolated Null Rationale" *)
Definition invalid_non_extrapolated_null_rationale (co_trl : Table)
  : list Row :=
  where_ (λ r, eq3 (is_extrapolated r) (Some 0) &&& is_null (rationale r))
         co_trl.

(** "Invalid Backward Extrapolation": the CTE [first_year] has the columns
    [client_id] and [min_year]. *)
Definition first_year (co_trl : Table) : list (Z * option Z) :=
  (λ c, (c, min_agg (reference_year <$> group client_id co_trl c)))
    <$> group_keys client_id co_trl.

Definition invalid_backward_extrapolation (co_trl : Table) : list Row :=
  fst <$>
    where_ (λ tf, eq3 (is_extrapolated tf.1) (Some 1)
                  &&& neq3 (Some (trl_id tf.1)) (Some 9))
      (join (λ t f, eq3 (Some (client_id t)) (Some f.1)
                    &&& eq3 (Some (reference_year t)) f.2)
            co_trl (first_year co_trl)).

(** "Duplicate TRL Entries": the CTE [duplicates] has the columns
    [client_id], [reference_year] and [trl_id]. *)
Definition triple (r : Row) : Z * Z * Z :=
  (client_id r, reference_year r, trl_id r).

Definition duplicates (co_trl : Table) : list (Z * Z * Z) :=
  where_ (λ k, gt3 (Some (count_star (group triple co_trl k))) (Some 1))
         (group_keys triple co_trl).

Definition duplicate_trl_entries (co_trl : Table) : list Row :=
  fst <$>
    join (λ t d, eq3 (Some (client_id t)) (Some d.1.1)
                 &&& eq3 (Some (reference_year t)) (Some d.1.2)
                 &&& eq3 (Some (trl_id t)) (Some d.2))
         co_trl (duplicates co_trl).

(** "Null Rationale not Extrapolated (≠ 2025)" *)
Definition null_rationale_not_extrapolated (co_trl : Table) : list Row :=
  where_ (λ r, is_null (rationale r)
               &&& (neq3 (is_extrapolated r) (Some 1)
                    ||| is_null (is_extrapolated r))
               &&& neq3 (Some (reference_year r)) (Some 2025))
         co_trl.

(** "Extrapolated Rows with Rationale" *)
Definition extrapolated_rows_with_rationale (co_trl : Table) : list Row :=
  where_ (λ r, eq3 (is_extrapolated r) (Some 1)
               &&& is_not_null (rationale r))
         co_trl.

(** ** "Priority Violation" *)

Section Collated.

(** The collation of the column [source]. *)
Context {col : Collation}.

(** The CASE expression of the ORDER BY clause: the first WHEN whose
    condition is TRUE decides. *)
Definition tier (r : Row) : Z :=
  if decide (holds (eq3 (manual_review_quality_id r) (Some 1))) then 1
  else if decide (holds (eq3 (manual_review_quality_id r) (Some 2))) then 2
  else if decide (holds (eq3_str (source r) (Some "Cloud A"))) then 3
  else if decide (holds (eq3_str (source r) (Some "Perplexity (Sonar)")))
       then 4
  else 5.

(** [ORDER BY CASE ... END, acq_date DESC]: [prio_le a b] when [a] may be
    numbered before [b]. *)
Definition prio_le (a b : Row) : Prop :=
  tier a < tier b ∨ (tier a = tier b ∧ acq_date b ≤ acq_date a).

#[global] Instance prio_le_dec a b : Decision (prio_le a b).
Proof. unfold prio_le. apply _. Defined.

(** [PARTITION BY client_id, reference_year] *)
Definition part_key (r : Row) : Z * Z := (client_id r, reference_year r).

(** A row of [ranked_trl]: the columns of the table and [rnk]. *)
Record RankedRow : Type := mkRanked { base : Row; rnk : Z }.

#[global] Instance RankedRow_eq_dec : EqDecision RankedRow.
Proof. solve_decision. Defined.

(** ROW_NUMBER() over one partition already put in window order. *)
Definition row_number (s : list Row) : list RankedRow :=
  imap (λ i r, {| base := r; rnk := Z.of_nat i + 1 |}) s.

(** The orders an engine may give to the rows of a partition [p]: any
    arrangement of them that respects the ORDER BY clause.  Rows that agree
    on both sort keys may come in either order. *)
Definition window_order (p s : list Row) : Prop :=
  s ≡ₚ p ∧ StronglySorted prio_le s.

(** The CTE [ranked_trl], as the relation between the table and the results
    an engine may return. *)
Definition ranked_trl_rel (co_trl : Table) (out : list RankedRow) : Prop :=
  ∃ ss : list (list Row),
    Forall2 (λ k s, window_order (group part_key co_trl k) s)
            (group_keys part_key co_trl) ss
    ∧ out = mjoin (row_number <$> ss).

(** [SELECT * FROM ranked_trl WHERE rnk > 1] *)
Definition rnk_gt_1 (ranked : list RankedRow) : list RankedRow :=
  where_ (λ x, gt3 (Some (rnk x)) (Some 1)) ranked.

Definition priority_violation_rel (co_trl : Table) (res : list RankedRow)
  : Prop :=
  ∃ out, ranked_trl_rel co_trl out ∧ res = rnk_gt_1 out.

(** One engine: a stable merge sort of each partition. *)
Definition ranked_trl (co_trl : Table) : list RankedRow :=
  k ← group_keys part_key co_trl;
  row_number (merge_sort prio_le (group part_key co_trl k)).

Definition priority_violation (co_trl : Table) : list RankedRow :=
  rnk_gt_1 (ranked_trl co_trl).

(** ** The catalog [checks] and the loop that runs the selection *)

(** The query texts of [checks]. *)
Inductive Query : Type :=
| SelInvalidNonExtrapolatedNullRationale
| SelInvalidBackwardExtrapolation
| SelDuplicateTrlEntries
| SelPriorityViolation
| SelNullRationaleNotExtrapolated
| SelExtrapolatedRowsWithRationale.

#[global] Instance Query_eq_dec : EqDecision Query.
Proof. solve_decision. Defined.

(** What [pd.read_sql] returns: the rows under the columns of the SELECT
    list. *)
Inductive DataFrame : Type :=
| BaseRows (rows : list Row)
| RankedRows (rows : list RankedRow).

Definition columns (df : DataFrame) : list string :=
  match df with
  | BaseRows _ => co_trl_columns
  | RankedRows _ => co_trl_columns ++ ["rnk"]
  end.

Definition len (df : DataFrame) : nat :=
  match df with
  | BaseRows rows => length rows
  | RankedRows rows => length rows
  end.

Definition empty (df : DataFrame) : bool := bool_decide (len df = 0%nat).

(** The results the data source may return for a query text.  No query
    has an ORDER BY clause: the rows of a result may come in any order. *)
Definition query_rel (q : Query) (co_trl : Table) (df : DataFrame) : Prop :=
  match q with
  | SelInvalidNonExtrapolatedNullRationale =>
      ∃ rows, rows ≡ₚ invalid_non_extrapolated_null_rationale co_trl
              ∧ df = BaseRows rows
  | SelInvalidBackwardExtrapolation =>
      ∃ rows, rows ≡ₚ invalid_backward_extrapolation co_trl
              ∧ df = BaseRows rows
  | SelDuplicateTrlEntries =>
      ∃ rows, rows ≡ₚ duplicate_trl_entries co_trl ∧ df = BaseRows rows
  | SelPriorityViolation =>
      ∃ res rows, priority_violation_rel co_trl res ∧ rows ≡ₚ res
                  ∧ df = RankedRows rows
  | SelNullRationaleNotExtrapolated =>
      ∃ rows, rows ≡ₚ null_rationale_not_extrapolated co_trl
              ∧ df = BaseRows rows
  | SelExtrapolatedRowsWithRationale =>
      ∃ rows, rows ≡ₚ extrapolated_rows_with_rationale co_trl
              ∧ df = BaseRows rows
  end.

(** The result with the executable numbering. *)
Definition run_query (q : Query) (co_trl : Table) : DataFrame :=
  match q with
  | SelInvalidNonExtrapolatedNullRationale =>
      BaseRows (invalid_non_extrapolated_null_rationale co_trl)
  | SelInvalidBackwardExtrapolation =>
      BaseRows (invalid_backward_extrapolation co_trl)
  | SelDuplicateTrlEntries =>
      BaseRows (duplicate_trl_entries co_trl)
  | SelPriorityViolation =>
      RankedRows (priority_violation co_trl)
  | SelNullRationaleNotExtrapolated =>
      BaseRows (null_rationale_not_extrapolated co_trl)
  | SelExtrapolatedRowsWithRationale =>
      BaseRows (extrapolated_rows_with_rationale co_trl)
  end.

Record Check : Type := mkCheck { description : string; query : Query }.

(** The dictionary [checks], in insertion order. *)
Definition checks : list (string * Check) :=
  [ ("Invalid Non-Extrapolated Null Rationale",
     mkCheck "Rows with NULL rationale but not marked as extrapolated."
             SelInvalidNonExtrapolatedNullRationale);
    ("Invalid Backward Extrapolation",
     mkCheck "First-year extrapolated entries not using TRL ID 9."
             SelInvalidBackwardExtrapolation);
    ("Duplicate TRL Entries",
     mkCheck "Duplicate rows for the same client_id, reference_year, and trl_id."
             SelDuplicateTrlEntries);
    ("Priority Violation",
     mkCheck "Lower-priority TRL entries for same client/year."
             SelPriorityViolation);
    ("Null Rationale not Extrapolated (≠ 2025)",
     mkCheck "NULL rationales without extrapolation flag (except 2025)."
             SelNullRationaleNotExtrapolated);
    ("Extrapolated Rows with Rationale",
     mkCheck "Extrapolated rows that unexpectedly have rationale."
             SelExtrapolatedRowsWithRationale) ].

(** [list(checks.keys())] *)
Definition keys : list string := fst <$> checks.

(** [checks[name]]: [None] stands for the KeyError Python raises. *)
Fixpoint getitem (d : list (string * Check)) (name : string) : option Check :=
  match d with
  | [] => None
  | (k, c) :: d' => if decide (k = name) then Some c else getitem d' name
  end.

(** [name.replace(' ', '_')] *)
Fixpoint replace_space (s : string) : string :=
  match s with
  | EmptyString => EmptyString
  | String c s' =>
      String (if decide (c = " "%char) then "_"%char else c) (replace_space s')
  end.

(** The exceptions that end the script: of the dictionary lookup, of the
    data source, and of Streamlit when an element is made twice. *)
Inductive exn : Type :=
| KeyError (key : string)
| DatabaseError
| StreamlitDuplicateElementId (file_name : string).

(** The calls the script makes to Streamlit and pandas, with the values
    interpolated in their arguments. *)
Inductive Call : Type :=
| st_warning (msg : string)
| st_subheader (name : string)
| st_markdown (logic : string)
| pd_read_sql (q : Query)
| st_info (records : nat)
| st_dataframe (df : DataFrame)
| st_download_button (file_name : string).

Record Outcome : Type := mkOutcome { calls : list Call; raised : option exn }.

(** The download buttons among the calls.  The buttons are made without a
    [key] and all have the same label, so a button is told from the others
    by its file name. *)
Definition buttons (cs : list Call) : list string :=
  omap (λ c, match c with st_download_button f => Some f | _ => None end) cs.

Section Run.

(** The data source behind [engine]: it answers a query or fails. *)
Variable engine : Query → exn + DataFrame.

(** One turn of the loop body for [name], after the download buttons
    [made] in the turns before: Streamlit refuses a second button with the
    file name of an earlier one. *)
Definition run_check_after (made : list string) (name : string) : Outcome :=
  match getitem checks name with
  | None => mkOutcome [st_subheader name] (Some (KeyError name))
  | Some c =>
      match engine (query c) with
      | inl e =>
          mkOutcome [st_subheader name; st_markdown (description c);
                     pd_read_sql (query c)] (Some e)
      | inr df =>
          if decide (empty df = false
                     ∧ replace_space name +:+ ".csv" ∈ made)
          then
            mkOutcome
              [st_subheader name; st_markdown (description c);
               pd_read_sql (query c); st_info (len df); st_dataframe df]
              (Some (StreamlitDuplicateElementId
                       (replace_space name +:+ ".csv")))
          else
            mkOutcome
              ([st_subheader name; st_markdown (description c);
                pd_read_sql (query c); st_info (len df); st_dataframe df]
               ++ (if empty df then []
                   else [st_download_button (replace_space name +:+ ".csv")]))
              None
      end
  end.

(** The first turn of the loop. *)
Definition run_check (name : string) : Outcome := run_check_after [] name.

(** [for name in selected_checks]: an exception ends the loop. *)
Fixpoint run_loop_after (made : list string) (selected_checks : list string)
  : Outcome :=
  match selected_checks with
  | [] => mkOutcome [] None
  | name :: rest =>
      let o := run_check_after made name in
      match raised o with
      | Some _ => o
      | None =>
          let o' := run_loop_after (made ++ buttons (calls o)) rest in
          mkOutcome (calls o ++ calls o') (raised o')
      end
  end.

Definition run_loop (selected_checks : list string) : Outcome :=
  run_loop_after [] selected_checks.

(** [if run_button: ...] *)
Definition run (run_button : bool) (selected_checks : list string)
  : Outcome :=
  if run_button then
    match selected_checks with
    | [] => mkOutcome
              [st_warning "Please select at least one check to run."] None
    | _ => run_loop selected_checks
    end
  else mkOutcome [] None.

(** The queries submitted to the data source. *)
Definition submitted (o : Outcome) : list Query :=
  omap (λ c, match c with pd_read_sql q => Some q | _ => None end) (calls o).

End Run.

(** ** Derived notions used by the statements *)

(** [b] does not come before [a] on the sort keys: [a] is strictly first. *)
Definition prio_lt (a b : Row) : Prop :=
  tier a < tier b ∨ (tier a = tier b ∧ acq_date b < acq_date a).

(** The acq_date values are pairwise distinct within each
    (client_id, reference_year) group. *)
Definition distinct_acq_dates (co_trl : Table) : Prop :=
  Forall (λ k, NoDup (acq_date <$> group part_key co_trl k))
         (group_keys part_key co_trl).

#[global] Instance distinct_acq_dates_dec co_trl :
  Decision (distinct_acq_dates co_trl).
Proof. unfold distinct_acq_dates. apply _. Defined.

(** Another engine: it numbers the partitions as they come out of a merge
    sort of the reversed partition. *)
Definition ranked_trl_rev (co_trl : Table) : list RankedRow :=
  k ← group_keys part_key co_trl;
  row_number (merge_sort prio_le (reverse (group part_key co_trl k))).

(** The rows of the table a result holds, without [rnk]. *)
Definition rows_of (df : DataFrame) : list Row :=
  match df with
  | BaseRows rows => rows
  | RankedRows rows => base <$> rows
  end.

(** The engine that answers every query over a given table. *)
Definition engine_of (co_trl : Table) (q : Query) : exn + DataFrame :=
  inr (run_query q co_trl).

(** An engine that fails on the ranking query and answers the others. *)
Definition engine_no_window (co_trl : Table) (q : Query) : exn + DataFrame :=
  if decide (q = SelPriorityViolation) then inl DatabaseError
  else inr (run_query q co_trl).

(** [source = 'name'] is TRUE for the row. *)
Definition source_is (r : Row) (name : string) : Prop :=
  eq3_str (source r) (Some name) = Some true.

End Collated.

(** ** Two collations *)

(** [s] without its trailing blanks. *)
Fixpoint rtrim (s : string) : string :=
  match s with
  | EmptyString => EmptyString
  | String c s' =>
      match rtrim s' with
      | EmptyString =>
          if decide (c = " "%char) then EmptyString else String c EmptyString
      | t => String c t
      end
  end.

(** The letters A to Z as a to z. *)
Definition lower (c : ascii) : ascii :=
  let n := nat_of_ascii c in
  if decide (65 ≤ n ≤ 90)%nat then ascii_of_nat (n + 32) else c.

Fixpoint lower_string (s : string) : string :=
  match s with
  | EmptyString => EmptyString
  | String c s' => String (lower c) (lower_string s')
  end.

(** A binary collation: character data are equal when they are the same
    once the trailing blanks are off.  The concrete tables below are read
    with it. *)
#[global] Instance binary_collation : Collation :=
  {| str_eq x y := bool_decide (rtrim x = rtrim y) |}.

(** A collation that disregards the case of the letters A to Z as well. *)
Definition ci_collation : Collation :=
  {| str_eq x y :=
       bool_decide (lower_string (rtrim x) = lower_string (rtrim y)) |}.

(** ** Concrete tables *)

(** Rows for the rationale rules. *)
Definition row_2025 : Row :=
  mkRow 7 2025 4 (Some 0) None (Some "Cloud A") None 100.
Definition row_2024 : Row :=
  mkRow 7 2024 4 (Some 0) None (Some "Cloud A") None 100.
Definition row_null_flag : Row :=
  mkRow 7 2024 4 None None None None 100.
Definition row_extrapolated_rationale : Row :=
  mkRow 7 2024 4 (Some 1) (Some "estimated") None None 100.

(** Rows of one client over two years. *)
Definition client3_2020 : Row :=
  mkRow 3 2020 5 (Some 1) None None None 100.
Definition client3_2020_trl9 : Row :=
  mkRow 3 2020 9 (Some 1) None None None 101.
Definition client3_2021 : Row :=
  mkRow 3 2021 5 (Some 1) None None None 102.
Definition client3_2020_again : Row :=
  mkRow 3 2020 4 (Some 1) None None None 103.

(** Three rows with one triple and a row with a triple of its own. *)
Definition dup_a : Row := mkRow 1 2022 4 (Some 0) (Some "a") None None 1.
Definition dup_b : Row := mkRow 1 2022 4 (Some 0) (Some "b") None None 2.
Definition dup_c : Row := mkRow 1 2022 4 (Some 1) None None None 3.
Definition lone : Row := mkRow 1 2022 5 (Some 1) None None None 4.

(** Rows for the ranking: Row A is manually reviewed, Row B comes from
    the first preferred source. *)
Definition rowA : Row := mkRow 1 2022 6 (Some 0) (Some "reviewed") None (Some 1) 10.
Definition rowB : Row := mkRow 1 2022 5 (Some 0) (Some "cloud") (Some "Cloud A") None 20.
Definition rowB_reviewed : Row :=
  mkRow 1 2022 5 (Some 0) (Some "cloud") (Some "Cloud A") (Some 1) 20.
Definition rowC : Row :=
  mkRow 1 2022 4 (Some 0) (Some "sonar") (Some "Perplexity (Sonar)") None 30.
Definition rowD : Row := mkRow 2 2022 4 (Some 0) (Some "other") None None 40.

(** A row whose source is written in small letters, with trailing
    blanks. *)
Definition row_cloud_small : Row :=
  mkRow 1 2022 5 (Some 0) (Some "cloud") (Some "cloud a  ") None 20.

(** Two rows of one group with equal sort keys. *)
Definition tie1 : Row := mkRow 1 2022 4 (Some 0) (Some "x") None None 50.
Definition tie2 : Row := mkRow 1 2022 5 (Some 0) (Some "y") None None 50.

(** * Properties *)

(** ** The relational operators *)

Lemma elem_of_where {A} (c : A → tri) (t : list A) (x : A) :
  x ∈ where_ c t ↔ c x = Some true ∧ x ∈ t.
Proof. unfold where_. by rewrite list_elem_of_filter. Qed.

Section Operators.

Context {A B K : Type} `{EqDecision K}.

Lemma elem_of_join (c : A → B → tri) (l : list A) (r : list B) a b :
  (a, b) ∈ join c l r ↔ a ∈ l ∧ b ∈ r ∧ c a b = Some true.
Proof.
  unfold join. rewrite list_elem_of_bind. split.
  - intros (a' & Hin & Ha'). apply list_elem_of_bind in Hin.
    destruct Hin as (b' & Hin & Hb'). apply list_elem_of_singleton in Hin.
    apply elem_of_where in Hb'. naive_solver.
  - intros (Ha & Hb & Hc). exists a. split; [|done].
    apply list_elem_of_bind. exists b. split; [by apply list_elem_of_singleton|].
    by apply elem_of_where.
Qed.

Lemma elem_of_group_keys (key : A → K) (t : list A) (k : K) :
  k ∈ group_keys key t ↔ ∃ r, r ∈ t ∧ key r = k.
Proof.
  unfold group_keys. rewrite elem_of_remove_dups, list_elem_of_fmap.
  naive_solver.
Qed.

Lemma NoDup_group_keys (key : A → K) (t : list A) :
  NoDup (group_keys key t).
Proof. apply NoDup_remove_dups. Qed.

Lemma elem_of_group (key : A → K) (t : list A) (k : K) (r : A) :
  r ∈ group key t k ↔ key r = k ∧ r ∈ t.
Proof. unfold group. by rewrite list_elem_of_filter. Qed.

End Operators.

Lemma foldr_min_le (x : Z) (l : list Z) :
  foldr Z.min x l ≤ x ∧ ∀ y, y ∈ l → foldr Z.min x l ≤ y.
Proof.
  induction l as [|z l [IH1 IH2]]; simpl.
  - split; [lia|]. intros y Hy. by apply elem_of_nil in Hy.
  - split; [lia|]. intros y Hy. apply elem_of_cons in Hy as [->|Hy].
    + lia.
    + specialize (IH2 y Hy). lia.
Qed.

Lemma foldr_min_elem (x : Z) (l : list Z) : foldr Z.min x l ∈ x :: l.
Proof.
  induction l as [|z l IH]; simpl.
  - apply list_elem_of_here.
  - destruct (Z.min_spec z (foldr Z.min x l)) as [[_ ->]|[_ ->]].
    + apply list_elem_of_further, list_elem_of_here.
    + apply elem_of_cons in IH as [->|IH].
      * apply list_elem_of_here.
      * by do 2 apply list_elem_of_further.
Qed.

(** MIN returns the least value of the column. *)
Lemma min_agg_Some (l : list Z) (m : Z) :
  min_agg l = Some m ↔ m ∈ l ∧ ∀ y, y ∈ l → m ≤ y.
Proof.
  destruct l as [|x l]; simpl.
  - split; [done|]. intros [H _]. by apply elem_of_nil in H.
  - pose proof (foldr_min_le x l) as [H1 H2].
    pose proof (foldr_min_elem x l) as H3.
    split.
    + intros [= <-]. split; [done|].
      intros y Hy. apply elem_of_cons in Hy as [->|Hy]; auto.
    + intros [Hm Hle]. f_equal.
      assert (foldr Z.min x l ≤ m).
      { apply elem_of_cons in Hm as [->|Hm]; auto. }
      specialize (Hle _ H3). lia.
Qed.

(** Three-valued connectives that come out TRUE. *)
Lemma and3_true (a b : tri) : a &&& b = Some true ↔ a = Some true ∧ b = Some true.
Proof. destruct a as [[]|], b as [[]|]; simpl; naive_solver. Qed.

Lemma or3_true (a b : tri) : a ||| b = Some true ↔ a = Some true ∨ b = Some true.
Proof. destruct a as [[]|], b as [[]|]; simpl; naive_solver. Qed.

Lemma eq3_true {A} `{EqDecision A} (a b : option A) :
  eq3 a b = Some true ↔ ∃ x, a = Some x ∧ b = Some x.
Proof.
  destruct a as [x|], b as [y|]; simpl; try naive_solver.
  split.
  - intros [= H]. apply bool_decide_eq_true in H. naive_solver.
  - intros (z & [= ->] & [= ->]). f_equal. by apply bool_decide_eq_true.
Qed.

Lemma neq3_true {A} `{EqDecision A} (a b : option A) :
  neq3 a b = Some true ↔ ∃ x y, a = Some x ∧ b = Some y ∧ x ≠ y.
Proof.
  destruct a as [x|], b as [y|]; simpl; try naive_solver.
  split.
  - intros [= H]. apply bool_decide_eq_true in H. naive_solver.
  - intros (x' & y' & [= ->] & [= ->] & Hne). f_equal.
    by apply bool_decide_eq_true.
Qed.

Lemma gt3_true (x y : Z) : gt3 (Some x) (Some y) = Some true ↔ y < x.
Proof.
  simpl. split.
  - intros [= H]. by apply bool_decide_eq_true in H.
  - intros H. f_equal. by apply bool_decide_eq_true.
Qed.

Lemma is_null_true {A} (a : option A) : is_null a = Some true ↔ a = None.
Proof. destruct a; simpl; naive_solver. Qed.

Lemma is_not_null_true {A} (a : option A) :
  is_not_null a = Some true ↔ a ≠ None.
Proof. destruct a; simpl; naive_solver. Qed.

(** ** The rationale rules *)

Lemma elem_of_invalid_non_extrapolated_null_rationale co_trl r :
  r ∈ invalid_non_extrapolated_null_rationale co_trl
  ↔ r ∈ co_trl ∧ is_extrapolated r = Some 0 ∧ rationale r = None.
Proof.
  unfold invalid_non_extrapolated_null_rationale.
  rewrite elem_of_where, and3_true, eq3_true, is_null_true. naive_solver.
Qed.

Lemma elem_of_null_rationale_not_extrapolated co_trl r :
  r ∈ null_rationale_not_extrapolated co_trl
  ↔ r ∈ co_trl ∧ rationale r = None ∧ is_extrapolated r ≠ Some 1
    ∧ reference_year r ≠ 2025.
Proof.
  unfold null_rationale_not_extrapolated.
  rewrite elem_of_where, !and3_true, or3_true, !neq3_true, !is_null_true.
  split.
  - intros (((Hr & He) & Hy) & Hin). repeat split; try done.
    + destruct He as [(x & y & -> & [= <-] & Hne)| ->]; congruence.
    + destruct Hy as (x & y & [= <-] & [= <-] & Hne). done.
  - intros (Hin & Hr & He & Hy). repeat split; try done.
    + destruct (is_extrapolated r) as [e|]; [left|by right].
      exists e, 1. repeat split; congruence.
    + eauto.
Qed.

Lemma elem_of_extrapolated_rows_with_rationale co_trl r :
  r ∈ extrapolated_rows_with_rationale co_trl
  ↔ r ∈ co_trl ∧ is_extrapolated r = Some 1 ∧ rationale r ≠ None.
Proof.
  unfold extrapolated_rows_with_rationale.
  rewrite elem_of_where, and3_true, eq3_true, is_not_null_true. naive_solver.
Qed.

(** C1, as stated, fails: a row with [is_extrapolated = 0], a NULL rationale
    and [reference_year = 2025] is returned by "Invalid Non-Extrapolated Null
    Rationale", whose WHERE clause does not look at the year. *)
Lemma C1_exempt_year_counterexample :
  ¬ (∀ (co_trl : Table) (r : Row),
       r ∈ co_trl → is_extrapolated r = Some 0 → rationale r = None →
       ((r ∈ invalid_non_extrapolated_null_rationale co_trl
         ∧ r ∈ null_rationale_not_extrapolated co_trl)
        ↔ reference_year r ≠ 2025)
       ∧ (reference_year r = 2025 →
          (r ∉ invalid_non_extrapolated_null_rationale co_trl)
          ∧ (r ∉ null_rationale_not_extrapolated co_trl))).
Proof.
  intros H.
  pose proof (H [row_2025] row_2025 (list_elem_of_here _ _) eq_refl eq_refl)
    as [_ Hno].
  destruct (Hno eq_refl) as [Hnot _]. apply Hnot.
  vm_compute. apply list_elem_of_here.
Qed.

(** C1, amended: a row of the table with [is_extrapolated = 0] and a NULL
    rationale is returned by "Invalid Non-Extrapolated Null Rationale"
    whatever its year, and by "Null Rationale not Extrapolated (≠ 2025)" if
    and only if its [reference_year] is not 2025; so it is in both results if
    and only if its year is not 2025, and with year 2025 it is in the first
    result only. *)
Theorem C1_rationale_rules_exempt_year (co_trl : Table) (r : Row) :
  r ∈ co_trl → is_extrapolated r = Some 0 → rationale r = None →
  r ∈ invalid_non_extrapolated_null_rationale co_trl
  ∧ (r ∈ null_rationale_not_extrapolated co_trl ↔ reference_year r ≠ 2025)
  ∧ ((r ∈ invalid_non_extrapolated_null_rationale co_trl
      ∧ r ∈ null_rationale_not_extrapolated co_trl)
     ↔ reference_year r ≠ 2025).
Proof.
  intros Hin He Hr.
  assert (H1 : r ∈ invalid_non_extrapolated_null_rationale co_trl)
    by by apply elem_of_invalid_non_extrapolated_null_rationale.
  assert (H5 : r ∈ null_rationale_not_extrapolated co_trl
               ↔ reference_year r ≠ 2025).
  { rewrite elem_of_null_rationale_not_extrapolated. rewrite He.
    split; [naive_solver|]. intros Hy. repeat split; done. }
  split; [done|]. split; [done|]. rewrite <- H5. naive_solver.
Qed.

Lemma C1_rationale_rules_exempt_year_witness :
  (row_2024 ∈ invalid_non_extrapolated_null_rationale [row_2025; row_2024])
  ∧ (row_2024 ∈ null_rationale_not_extrapolated [row_2025; row_2024]
     ↔ reference_year row_2024 ≠ 2025)
  ∧ ((row_2024 ∈ invalid_non_extrapolated_null_rationale [row_2025; row_2024]
      ∧ row_2024 ∈ null_rationale_not_extrapolated [row_2025; row_2024])
     ↔ reference_year row_2024 ≠ 2025).
Proof.
  apply (C1_rationale_rules_exempt_year [row_2025; row_2024] row_2024).
  - apply list_elem_of_further, list_elem_of_here.
  - reflexivity.
  - reflexivity.
Defined.

(** C7: a row is returned by "Extrapolated Rows with Rationale" if and only
    if it is a row of the table whose [is_extrapolated] is 1 and whose
    rationale is not NULL. *)
Theorem C7_extrapolated_rows_with_rationale (co_trl : Table) (r : Row) :
  r ∈ extrapolated_rows_with_rationale co_trl
  ↔ r ∈ co_trl ∧ is_extrapolated r = Some 1 ∧ rationale r ≠ None.
Proof. apply elem_of_extrapolated_rows_with_rationale. Qed.

(** C9: a row of the table with a NULL [is_extrapolated], a NULL rationale
    and a [reference_year] other than 2025 is returned by "Null Rationale not
    Extrapolated (≠ 2025)" and not by "Invalid Non-Extrapolated Null
    Rationale". *)
Theorem C9_null_flag_asymmetry (co_trl : Table) (r : Row) :
  r ∈ co_trl → is_extrapolated r = None → rationale r = None →
  reference_year r ≠ 2025 →
  r ∈ null_rationale_not_extrapolated co_trl
  ∧ r ∉ invalid_non_extrapolated_null_rationale co_trl.
Proof.
  intros Hin He Hr Hy.
  rewrite elem_of_null_rationale_not_extrapolated,
    elem_of_invalid_non_extrapolated_null_rationale, He.
  naive_solver.
Qed.

Lemma C9_null_flag_asymmetry_witness :
  row_null_flag ∈ null_rationale_not_extrapolated [row_null_flag; row_2024]
  ∧ row_null_flag
      ∉ invalid_non_extrapolated_null_rationale [row_null_flag; row_2024].
Proof.
  apply (C9_null_flag_asymmetry [row_null_flag; row_2024] row_null_flag).
  - apply list_elem_of_here.
  - reflexivity.
  - reflexivity.
  - vm_compute. discriminate.
Defined.

(** ** "Invalid Backward Extrapolation" *)

(** The CTE [first_year] pairs each client with its least year. *)
Lemma elem_of_first_year co_trl c m :
  (c, m) ∈ first_year co_trl
  ↔ (∃ r, r ∈ co_trl ∧ client_id r = c)
    ∧ m = min_agg (reference_year <$> group client_id co_trl c).
Proof.
  unfold first_year. rewrite list_elem_of_fmap. split.
  - intros (c' & [= -> ->] & Hc). by apply elem_of_group_keys in Hc.
  - intros [Hc ->]. exists c. split; [done|]. by apply elem_of_group_keys.
Qed.

Lemma min_year_of_client co_trl c y :
  min_agg (reference_year <$> group client_id co_trl c) = Some y
  ↔ (∃ r, r ∈ co_trl ∧ client_id r = c ∧ reference_year r = y)
    ∧ ∀ r, r ∈ co_trl → client_id r = c → y ≤ reference_year r.
Proof.
  rewrite min_agg_Some, list_elem_of_fmap. split.
  - intros [(r & -> & Hr) Hle]. apply elem_of_group in Hr as [Hc Hr].
    split; [by eauto|]. intros r' Hr' Hc'. apply Hle.
    apply list_elem_of_fmap. exists r'. split; [done|].
    by apply elem_of_group.
  - intros [(r & Hr & Hc & Hy) Hle]. split.
    + exists r. split; [done|]. by apply elem_of_group.
    + intros y' Hy'. apply list_elem_of_fmap in Hy' as (r' & -> & Hr').
      apply elem_of_group in Hr' as [Hc' Hr']. by apply Hle.
Qed.

Lemma elem_of_invalid_backward_extrapolation co_trl r :
  r ∈ invalid_backward_extrapolation co_trl
  ↔ r ∈ co_trl
    ∧ (∀ r', r' ∈ co_trl → client_id r' = client_id r →
             reference_year r ≤ reference_year r')
    ∧ is_extrapolated r = Some 1
    ∧ trl_id r ≠ 9.
Proof.
  unfold invalid_backward_extrapolation.
  rewrite list_elem_of_fmap. split.
  - intros ([t [c m]] & -> & Hin). cbn [fst snd].
    apply elem_of_where in Hin as [Hw Hin]. cbn [fst snd] in Hw.
    apply elem_of_join in Hin as (Ht & Hf & Hon). cbn [fst snd] in Hon.
    apply and3_true in Hw as [He Hid]. apply and3_true in Hon as [Hc Hy].
    apply eq3_true in He as (e & He & [= <-]).
    apply neq3_true in Hid as (i & n & [= <-] & [= <-] & Hid).
    apply eq3_true in Hc as (c' & [= <-] & [= <-]).
    apply eq3_true in Hy as (y & [= <-] & ->).
    apply elem_of_first_year in Hf as [_ Hm]. symmetry in Hm.
    apply min_year_of_client in Hm as [_ Hle].
    repeat split; done || (intros r' Hr' Hc'; by apply Hle).
  - intros (Hin & Hmin & He & Hid).
    exists (r, (client_id r, Some (reference_year r))). split; [done|].
    apply elem_of_where. cbn [fst snd]. split.
    + apply and3_true. split.
      * apply eq3_true. eauto.
      * apply neq3_true. exists (trl_id r), 9. done.
    + apply elem_of_join. split; [done|]. split.
      * apply elem_of_first_year. split; [by eauto|]. symmetry.
        apply min_year_of_client. split; [by eauto|].
        intros r' Hr' Hc'. by apply Hmin.
      * cbn [fst snd]. apply and3_true. split; apply eq3_true; eauto.
Qed.

Example invalid_backward_extrapolation_example :
  invalid_backward_extrapolation
    [client3_2021; client3_2020; client3_2020_trl9]
  = [client3_2020].
Proof. reflexivity. Qed.

(** C6: a row is returned by "Invalid Backward Extrapolation" if and only if
    it is a row of the table whose [reference_year] is the least one of the
    rows of its client, whose [is_extrapolated] is 1 and whose [trl_id] is
    not 9; hence a row with [trl_id = 9] is not returned, and neither is a
    row whose client has a row of an earlier year. *)
Theorem C6_invalid_backward_extrapolation (co_trl : Table) (r : Row) :
  (r ∈ invalid_backward_extrapolation co_trl
   ↔ r ∈ co_trl
     ∧ (∀ r', r' ∈ co_trl → client_id r' = client_id r →
              reference_year r ≤ reference_year r')
     ∧ is_extrapolated r = Some 1
     ∧ trl_id r ≠ 9)
  ∧ (trl_id r = 9 → r ∉ invalid_backward_extrapolation co_trl)
  ∧ ((∃ r', r' ∈ co_trl ∧ client_id r' = client_id r
            ∧ reference_year r' < reference_year r) →
     r ∉ invalid_backward_extrapolation co_trl).
Proof.
  split; [apply elem_of_invalid_backward_extrapolation|].
  rewrite elem_of_invalid_backward_extrapolation. split.
  - naive_solver.
  - intros (r' & Hr' & Hc & Hlt) (_ & Hmin & _). specialize (Hmin r' Hr' Hc).
    lia.
Qed.

(** ** "Duplicate TRL Entries" *)

Lemma filter_eq_NoDup {K} `{EqDecision K} (ks : list K) (k : K) :
  NoDup ks →
  filter (λ d, d = k) ks = if decide (k ∈ ks) then [k] else [].
Proof.
  induction 1 as [|d ks Hd Hnd IH].
  - rewrite filter_nil. case_decide as Hk; [|done].
    by apply elem_of_nil in Hk.
  - rewrite filter_cons, IH. destruct (decide (d = k)) as [->|Hne].
    + rewrite decide_False by done.
      rewrite decide_True by apply list_elem_of_here. done.
    + destruct (decide (k ∈ ks)) as [Hk|Hk].
      * rewrite decide_True by by apply list_elem_of_further. done.
      * rewrite decide_False; [done|].
        intros [->|?]%elem_of_cons; done.
Qed.

(** Joining a table to a list of distinct keys on equality of the key keeps
    the rows whose key is listed, each once. *)
Lemma join_keys_filter {K} `{EqDecision K} (key : Row → K)
    (c : Row → K → tri) (t : Table) (ks : list K) :
  (∀ r d, c r d = Some true ↔ d = key r) →
  NoDup ks →
  fst <$> join c t ks = filter (λ r, key r ∈ ks) t.
Proof.
  intros Hc Hnd. unfold join. induction t as [|a t IH].
  - done.
  - rewrite bind_cons, fmap_app, IH, filter_cons. f_equal.
    unfold where_.
    rewrite (list_filter_iff _ (λ d, d = key a)) by (intros d; apply Hc).
    rewrite filter_eq_NoDup by done.
    destruct (decide (key a ∈ ks)); done.
Qed.

Lemma length_filter_pos {A} (P : A → Prop) `{∀ x, Decision (P x)}
    (l : list A) :
  (0 < length (filter P l))%nat ↔ ∃ j y, l !! j = Some y ∧ P y.
Proof.
  split.
  - intros Hlen. destruct (filter P l) as [|y l'] eqn:E; [simpl in Hlen; lia|].
    assert (Hy : y ∈ filter P l) by (rewrite E; apply list_elem_of_here).
    apply list_elem_of_filter in Hy as [HP Hy].
    apply list_elem_of_lookup in Hy as [j Hj]. eauto.
  - intros (j & y & Hj & HP).
    assert (Hy : y ∈ filter P l).
    { apply list_elem_of_filter. split; [done|].
      by eapply list_elem_of_lookup_2. }
    destruct (filter P l); [by apply elem_of_nil in Hy | simpl; lia].
Qed.

(** A filter keeps two rows or more exactly when two positions of the list
    hold rows that pass it. *)
Lemma length_filter_gt_1 {A} (P : A → Prop) `{∀ x, Decision (P x)}
    (l : list A) :
  (1 < length (filter P l))%nat
  ↔ ∃ i j x y, i ≠ j ∧ l !! i = Some x ∧ l !! j = Some y ∧ P x ∧ P y.
Proof.
  induction l as [|a l IH].
  - split; [simpl; lia|]. by intros (i & j & x & y & _ & Hi & _).
  - rewrite filter_cons. split.
    + intros Hlen. destruct (decide (P a)) as [Ha|Ha].
      * assert (Hpos : (0 < length (filter P l))%nat) by (simpl in Hlen; lia).
        apply length_filter_pos in Hpos as (j & y & Hj & Hy).
        exists 0%nat, (S j), a, y. done.
      * apply IH in Hlen as (i & j & x & y & Hne & Hi & Hj & Hx & Hy).
        exists (S i), (S j), x, y. repeat split; try done. lia.
    + intros (i & j & x & y & Hne & Hi & Hj & Hx & Hy).
      destruct i as [|i], j as [|j]; simplify_eq/=.
      * rewrite decide_True by done. simpl.
        assert ((0 < length (filter P l))%nat)
          by (apply length_filter_pos; eauto).
        lia.
      * rewrite decide_True by done. simpl.
        assert ((0 < length (filter P l))%nat)
          by (apply length_filter_pos; eauto).
        lia.
      * assert (Hlen : (1 < length (filter P l))%nat).
        { apply IH. exists i, j, x, y. repeat split; try done. congruence. }
        destruct (decide (P a)); simpl; lia.
Qed.

Lemma elem_of_duplicates co_trl k :
  k ∈ duplicates co_trl ↔ (1 < length (group triple co_trl k))%nat.
Proof.
  unfold duplicates. rewrite elem_of_where, gt3_true, elem_of_group_keys.
  unfold count_star. split; [lia|]. intros Hlen. split; [lia|].
  destruct (group triple co_trl k) as [|r g] eqn:E; [simpl in Hlen; lia|].
  assert (Hr : r ∈ group triple co_trl k) by (rewrite E; apply list_elem_of_here).
  apply elem_of_group in Hr as [Hk Hr]. eauto.
Qed.

(** The query returns, in table order and as often as they occur, the rows
    whose triple is carried by two rows or more. *)
Lemma duplicate_trl_entries_filter co_trl :
  duplicate_trl_entries co_trl
  = filter (λ r, (1 < length (group triple co_trl (triple r)))%nat) co_trl.
Proof.
  unfold duplicate_trl_entries.
  rewrite (join_keys_filter triple).
  - apply list_filter_iff. intros r. apply elem_of_duplicates.
  - intros r [[c y] i]. cbn [fst snd]. rewrite !and3_true, !eq3_true.
    unfold triple. split.
    + intros [[(? & [= <-] & [= <-]) (? & [= <-] & [= <-])]
                (? & [= <-] & [= <-])]. done.
    + intros [= -> -> ->]. eauto 10.
  - unfold duplicates, where_. apply NoDup_filter, NoDup_group_keys.
Qed.

Example duplicate_trl_entries_example :
  duplicate_trl_entries [dup_a; lone; dup_b; dup_c] = [dup_a; dup_b; dup_c].
Proof. reflexivity. Qed.

(** C5: a row is returned by "Duplicate TRL Entries" if and only if it
    stands at a position of the table and another position holds a row with
    the same (client_id, reference_year, trl_id); the rows of a group of two
    or more rows with one triple are all returned, as often as they occur,
    and a row whose triple no other position carries is not returned. *)
Theorem C5_duplicate_trl_entries (co_trl : Table) (r : Row) :
  (r ∈ duplicate_trl_entries co_trl
   ↔ ∃ i j r', i ≠ j ∧ co_trl !! i = Some r ∧ co_trl !! j = Some r'
               ∧ triple r' = triple r)
  ∧ (∀ k, (2 ≤ length (group triple co_trl k))%nat →
          group triple (duplicate_trl_entries co_trl) k
          = group triple co_trl k)
  ∧ ((∀ i j r', co_trl !! i = Some r → co_trl !! j = Some r' →
                triple r' = triple r → i = j) →
     r ∉ duplicate_trl_entries co_trl).
Proof.
  assert (Hiff : r ∈ duplicate_trl_entries co_trl
    ↔ ∃ i j r', i ≠ j ∧ co_trl !! i = Some r ∧ co_trl !! j = Some r'
                ∧ triple r' = triple r).
  { rewrite duplicate_trl_entries_filter, list_elem_of_filter.
    unfold group. rewrite length_filter_gt_1. split.
    - intros [(i & j & x & y & Hne & Hi & Hj & Hx & Hy) Hr].
      apply list_elem_of_lookup in Hr as [n Hn].
      destruct (decide (n = i)) as [->|Hni].
      + exists i, j, y. repeat split; try done; congruence.
      + exists n, i, x. done.
    - intros (i & j & r' & Hne & Hi & Hj & Ht). split.
      + exists i, j, r, r'. done.
      + by eapply list_elem_of_lookup_2. }
  split; [done|]. split.
  - intros k Hlen. rewrite duplicate_trl_entries_filter. unfold group.
    rewrite list_filter_filter. apply list_filter_iff. intros x.
    split; [naive_solver|]. intros <-. split; [done|].
    fold (group triple co_trl (triple x)). lia.
  - intros Huniq. rewrite Hiff. intros (i & j & r' & Hne & Hi & Hj & Ht).
    apply Hne. by eapply Huniq.
Qed.

(** ** The loop over the selected rules *)

Lemma getitem_None (d : list (string * Check)) (name : string) :
  getitem d name = None ↔ name ∉ fst <$> d.
Proof.
  induction d as [|[k c] d IH]; simpl.
  - split; [|done]. intros _ H. by apply elem_of_nil in H.
  - rewrite not_elem_of_cons. destruct (decide (k = name)) as [->|Hne].
    + naive_solver.
    + rewrite IH. naive_solver.
Qed.

Section RunProperties.

Variable engine : Query → exn + DataFrame.

Lemma run_check_after_unknown (made : list string) (name : string) :
  name ∉ keys →
  run_check_after engine made name
  = mkOutcome [st_subheader name] (Some (KeyError name)).
Proof.
  intros Hname. unfold run_check_after.
  by rewrite (proj2 (getitem_None checks name) Hname).
Qed.

Lemma run_check_unknown (name : string) :
  name ∉ keys →
  run_check engine name
  = mkOutcome [st_subheader name] (Some (KeyError name)).
Proof. apply run_check_after_unknown. Qed.

(** Names selected after the loop has stopped are not looked at. *)
Lemma run_loop_after_raised (made pre rest : list string) (e : exn) :
  raised (run_loop_after engine made pre) = Some e →
  run_loop_after engine made (pre ++ rest) = run_loop_after engine made pre.
Proof.
  revert made. induction pre as [|name pre IH]; intros made; simpl; [done|].
  destruct (raised (run_check_after engine made name)) eqn:E; [done|].
  simpl. intros Hr. by rewrite (IH _ Hr).
Qed.

Lemma buttons_app (cs1 cs2 : list Call) :
  buttons (cs1 ++ cs2) = buttons cs1 ++ buttons cs2.
Proof. apply omap_app. Qed.

Lemma run_loop_after_app (made pre rest : list string) :
  raised (run_loop_after engine made pre) = None →
  run_loop_after engine made (pre ++ rest)
  = mkOutcome
      (calls (run_loop_after engine made pre)
       ++ calls (run_loop_after engine
                   (made ++ buttons (calls (run_loop_after engine made pre)))
                   rest))
      (raised (run_loop_after engine
                 (made ++ buttons (calls (run_loop_after engine made pre)))
                 rest)).
Proof.
  revert made. induction pre as [|name pre IH]; intros made; simpl.
  - intros _. rewrite app_nil_r. by destruct (run_loop_after engine made rest).
  - destruct (raised (run_check_after engine made name)) eqn:E.
    + by rewrite E.
    + simpl. intros Hr. rewrite (IH _ Hr). simpl.
      by rewrite buttons_app, !app_assoc.
Qed.

Lemma submitted_app (cs1 cs2 : list Call) (e1 e2 : option exn) :
  submitted (mkOutcome (cs1 ++ cs2) e1)
  = submitted (mkOutcome cs1 e2) ++ submitted (mkOutcome cs2 e2).
Proof. unfold submitted. simpl. apply omap_app. Qed.

End RunProperties.

Example run_known_then_unknown :
  run (engine_of [row_2024]) true
      ["Extrapolated Rows with Rationale"; "No Such Rule"; "Priority Violation"]
  = mkOutcome
      [st_subheader "Extrapolated Rows with Rationale";
       st_markdown "Extrapolated rows that unexpectedly have rationale.";
       pd_read_sql SelExtrapolatedRowsWithRationale;
       st_info 0; st_dataframe (BaseRows []);
       st_subheader "No Such Rule"]
      (Some (KeyError "No Such Rule")).
Proof. reflexivity. Qed.

(** C8: for a name that is not a key of [checks], the loop body fails with
    the error of the dictionary lookup (Python's KeyError, the unknown-rule
    error of the specification) before [pd.read_sql] is reached: it submits
    no query.  In a selection, the loop stops at the first such name: the
    queries submitted are those of the names before it, and none for it or
    for the names after it. *)
Theorem C8_unknown_rule_no_query (engine : Query → exn + DataFrame)
    (name : string) (pre rest : list string) :
  name ∉ keys →
  raised (run_check engine name) = Some (KeyError name)
  ∧ submitted (run_check engine name) = []
  ∧ raised (run engine true (name :: rest)) = Some (KeyError name)
  ∧ submitted (run engine true (name :: rest)) = []
  ∧ submitted (run_loop engine (pre ++ name :: rest))
    = submitted (run_loop engine pre)
  ∧ (raised (run_loop engine pre) = None →
     raised (run_loop engine (pre ++ name :: rest)) = Some (KeyError name)).
Proof.
  intros Hname. pose proof (run_check_unknown engine name Hname) as Hrun.
  assert (Hloop : ∀ made, run_loop_after engine made (name :: rest)
                  = mkOutcome [st_subheader name] (Some (KeyError name))).
  { intros made. simpl. by rewrite run_check_after_unknown. }
  split; [by rewrite Hrun|]. split; [by rewrite Hrun|].
  unfold run, run_loop.
  split; [by rewrite Hloop|]. split; [by rewrite Hloop|].
  destruct (raised (run_loop_after engine [] pre)) as [e|] eqn:E.
  - split; [|done]. by rewrite (run_loop_after_raised engine [] pre _ e).
  - rewrite run_loop_after_app, Hloop by done. simpl. split; [|done].
    rewrite (submitted_app _ _ _ None). simpl.
    unfold submitted at 2. simpl. rewrite app_nil_r.
    unfold submitted. done.
Qed.

Lemma C8_unknown_rule_no_query_witness :
  raised (run_check (engine_of [row_2024]) "No Such Rule")
  = Some (KeyError "No Such Rule")
  ∧ submitted (run_check (engine_of [row_2024]) "No Such Rule") = []
  ∧ raised (run (engine_of [row_2024]) true ["No Such Rule"; "Priority Violation"])
    = Some (KeyError "No Such Rule")
  ∧ submitted (run (engine_of [row_2024]) true
                   ["No Such Rule"; "Priority Violation"]) = []
  ∧ submitted (run_loop (engine_of [row_2024])
                 (["Duplicate TRL Entries"]
                  ++ "No Such Rule" :: ["Priority Violation"]))
    = submitted (run_loop (engine_of [row_2024]) ["Duplicate TRL Entries"])
  ∧ (raised (run_loop (engine_of [row_2024]) ["Duplicate TRL Entries"]) = None →
     raised (run_loop (engine_of [row_2024])
               (["Duplicate TRL Entries"]
                ++ "No Such Rule" :: ["Priority Violation"]))
     = Some (KeyError "No Such Rule")).
Proof.
  apply (C8_unknown_rule_no_query (engine_of [row_2024]) "No Such Rule"
           ["Duplicate TRL Entries"] ["Priority Violation"]).
  vm_compute. intros H. repeat (apply elem_of_cons in H as [H|H]; [discriminate|]).
  by apply elem_of_nil in H.
Defined.

(** ** "Priority Violation": the window order *)

Section Collated1.

Context {col : Collation}.

(** The CASE expression, tier by tier. *)
Lemma tier_spec (r : Row) :
  (tier r = 1 ↔ manual_review_quality_id r = Some 1)
  ∧ (tier r = 2 ↔ manual_review_quality_id r = Some 2)
  ∧ (tier r = 3 ↔ manual_review_quality_id r ≠ Some 1
                  ∧ manual_review_quality_id r ≠ Some 2
                  ∧ source_is r "Cloud A")
  ∧ (tier r = 4 ↔ manual_review_quality_id r ≠ Some 1
                  ∧ manual_review_quality_id r ≠ Some 2
                  ∧ ¬ source_is r "Cloud A"
                  ∧ source_is r "Perplexity (Sonar)")
  ∧ (tier r = 5 ↔ manual_review_quality_id r ≠ Some 1
                  ∧ manual_review_quality_id r ≠ Some 2
                  ∧ ¬ source_is r "Cloud A"
                  ∧ ¬ source_is r "Perplexity (Sonar)").
Proof.
  unfold tier, source_is, holds.
  assert (Hq : ∀ n : Z, eq3 (manual_review_quality_id r) (Some n) = Some true
                        ↔ manual_review_quality_id r = Some n).
  { intros n. rewrite eq3_true. naive_solver. }
  repeat case_decide;
    repeat match goal with
           | H : eq3 (manual_review_quality_id r) _ = _ |- _ => apply Hq in H
           | H : ¬ eq3 (manual_review_quality_id r) _ = _ |- _ =>
               rewrite Hq in H
           end;
    repeat split; intros; try done; try lia; try congruence;
    try (destruct_and?; congruence).
Qed.

Lemma tier_range (r : Row) : 1 ≤ tier r ≤ 5.
Proof. unfold tier. repeat case_decide; lia. Qed.

#[global] Instance prio_le_total : Total prio_le.
Proof. intros a b. unfold prio_le. lia. Qed.

#[global] Instance prio_le_trans : Transitive prio_le.
Proof. intros a b c. unfold prio_le. lia. Qed.

Lemma prio_lt_not_le (a b : Row) : prio_lt a b ↔ ¬ prio_le b a.
Proof. unfold prio_lt, prio_le. lia. Qed.

Lemma merge_sort_window_order (p : list Row) :
  window_order p (merge_sort prio_le p).
Proof.
  split.
  - apply merge_sort_Permutation.
  - apply StronglySorted_merge_sort; apply _.
Qed.

Lemma StronglySorted_lookup_le {A} (R : relation A) (s : list A) i j a b :
  StronglySorted R s → (i < j)%nat →
  s !! i = Some a → s !! j = Some b → R a b.
Proof.
  intros Hs. revert i j. induction Hs as [|x s Hs IH Hx]; intros i j Hij Hi Hj.
  - done.
  - destruct j as [|j]; [lia|]. simpl in Hj. destruct i as [|i].
    + simpl in Hi. simplify_eq. rewrite Forall_forall in Hx. apply Hx.
      by eapply list_elem_of_lookup_2.
    + simpl in Hi. apply (IH i j); [lia|done..].
Qed.

(** ** The rows of [ranked_trl] *)

Lemma elem_of_row_number (s : list Row) (x : RankedRow) :
  x ∈ row_number s
  ↔ ∃ i : nat, s !! i = Some (base x) ∧ rnk x = Z.of_nat i + 1.
Proof.
  unfold row_number. rewrite elem_of_lookup_imap. split.
  - intros (i & r & -> & Hi). exists i. done.
  - intros (i & Hi & Hr). exists i, (base x). split; [|done].
    destruct x as [r n]. simpl in *. by subst.
Qed.

Lemma base_imap (g : nat → Row → RankedRow) (s : list Row) :
  (∀ i r, base (g i r) = r) → base <$> imap g s = s.
Proof.
  revert g. induction s as [|r s IH]; intros g Hg; [done|].
  rewrite imap_cons, fmap_cons, Hg. f_equal. apply IH. intros i r'. apply Hg.
Qed.

Lemma rnk_gt_1_imap (g : nat → Row → RankedRow) (s : list Row) :
  (∀ i r, 1 < rnk (g i r)) → rnk_gt_1 (imap g s) = imap g s.
Proof.
  unfold rnk_gt_1, where_.
  revert g. induction s as [|r s IH]; intros g Hg; [done|].
  rewrite imap_cons, filter_cons, decide_True.
  - f_equal. apply IH. intros i r'. apply Hg.
  - unfold holds. rewrite gt3_true. apply Hg.
Qed.

Lemma base_row_number (s : list Row) : base <$> row_number s = s.
Proof. by apply base_imap. Qed.

(** Only the first row of a numbered partition has [rnk = 1]. *)
Lemma rnk_gt_1_row_number (r : Row) (s : list Row) :
  base <$> rnk_gt_1 (row_number (r :: s)) = s.
Proof.
  unfold row_number. rewrite imap_cons.
  unfold rnk_gt_1 at 1, where_. rewrite filter_cons, decide_False.
  - fold (where_ (λ x, gt3 (Some (rnk x)) (Some 1))).
    fold (rnk_gt_1). rewrite rnk_gt_1_imap.
    + by apply base_imap.
    + intros i r'. simpl. lia.
  - unfold holds. rewrite gt3_true. simpl. lia.
Qed.

Lemma filter_Forall_id {A} (P : A → Prop) `{∀ x, Decision (P x)} (l : list A) :
  Forall P l → filter P l = l.
Proof.
  induction 1 as [|x l Hx Hl IH]; [done|].
  by rewrite filter_cons_True, IH.
Qed.

Lemma filter_Forall_nil {A} (P : A → Prop) `{∀ x, Decision (P x)}
    (l : list A) :
  Forall (λ x, ¬ P x) l → filter P l = [].
Proof.
  induction 1 as [|x l Hx Hl IH]; [done|].
  by rewrite filter_cons_False, IH.
Qed.

Section RankedTrl.

Variable co_trl : Table.

(** The rows of a window order of partition [k] are rows of the table
    with partition key [k]. *)
Lemma window_order_elem (k : Z * Z) (s : list Row) (r : Row) :
  window_order (group part_key co_trl k) s →
  r ∈ s ↔ part_key r = k ∧ r ∈ co_trl.
Proof. intros [Hp _]. by rewrite Hp, elem_of_group. Qed.

Lemma row_number_part_key (k : Z * Z) (s : list Row) :
  window_order (group part_key co_trl k) s →
  Forall (λ x, part_key (base x) = k) (row_number s).
Proof.
  intros Hw. apply Forall_forall. intros x Hx.
  apply elem_of_row_number in Hx as (i & Hi & _).
  apply list_elem_of_lookup_2 in Hi.
  by apply (window_order_elem k s) in Hi as [? _].
Qed.

Lemma window_order_nil (k : Z * Z) :
  k ∉ group_keys part_key co_trl → window_order (group part_key co_trl k) [].
Proof.
  intros Hk. split; [|constructor].
  destruct (group part_key co_trl k) as [|r g] eqn:E; [done|].
  exfalso. apply Hk. apply elem_of_group_keys. exists r.
  assert (Hr : r ∈ group part_key co_trl k) by (rewrite E; apply list_elem_of_here).
  apply elem_of_group in Hr. naive_solver.
Qed.

(** The rows of one partition in a numbering of distinct partitions. *)
Lemma filter_partition_numbered (ks : list (Z * Z)) (ss : list (list Row))
    (k : Z * Z) :
  NoDup ks →
  Forall2 (λ k' s, window_order (group part_key co_trl k') s) ks ss →
  (k ∉ ks →
   filter (λ x, part_key (base x) = k) (mjoin (row_number <$> ss)) = [])
  ∧ (k ∈ ks →
     ∃ s, window_order (group part_key co_trl k) s
          ∧ filter (λ x, part_key (base x) = k) (mjoin (row_number <$> ss))
            = row_number s).
Proof.
  intros Hnd Hall. induction Hall as [|k' s ks ss Hw Hall IH].
  - split; [done|]. intros Hk. by apply elem_of_nil in Hk.
  - apply NoDup_cons in Hnd as [Hk' Hnd]. destruct (IH Hnd) as [IHn IHy].
    rewrite fmap_cons. simpl. rewrite filter_app.
    pose proof (row_number_part_key k' s Hw) as Hkeys.
    split.
    + intros Hk. apply not_elem_of_cons in Hk as [Hne Hk].
      rewrite (IHn Hk), app_nil_r. apply filter_Forall_nil.
      eapply Forall_impl; [exact Hkeys|]. simpl. congruence.
    + intros Hk. destruct (decide (k = k')) as [->|Hne].
      * exists s. split; [done|]. rewrite (IHn Hk'), app_nil_r.
        by apply filter_Forall_id.
      * apply elem_of_cons in Hk as [?|Hk]; [done|].
        destruct (IHy Hk) as (s' & Hw' & ->). exists s'. split; [done|].
        rewrite filter_Forall_nil; [done|].
        eapply Forall_impl; [exact Hkeys|]. simpl. congruence.
Qed.

(** Every result of [ranked_trl] holds, for each partition key, the
    numbering of one window order of the partition. *)
Lemma ranked_trl_rel_partition (out : list RankedRow) (k : Z * Z) :
  ranked_trl_rel co_trl out →
  ∃ s, window_order (group part_key co_trl k) s
       ∧ filter (λ x, part_key (base x) = k) out = row_number s.
Proof.
  intros (ss & Hall & ->).
  destruct (filter_partition_numbered _ ss k
              (NoDup_group_keys part_key co_trl) Hall) as [Hn Hy].
  destruct (decide (k ∈ group_keys part_key co_trl)) as [Hk|Hk].
  - by apply Hy.
  - exists []. split; [by apply window_order_nil|]. by apply Hn.
Qed.

(** The executable numbering is one of the results. *)
Lemma ranked_trl_sound : ranked_trl_rel co_trl (ranked_trl co_trl).
Proof.
  unfold ranked_trl, ranked_trl_rel.
  exists ((λ k, merge_sort prio_le (group part_key co_trl k))
            <$> group_keys part_key co_trl).
  split.
  - induction (group_keys part_key co_trl) as [|k ks IH]; [constructor|].
    rewrite fmap_cons. constructor; [apply merge_sort_window_order|done].
  - induction (group_keys part_key co_trl) as [|k ks IH]; [done|].
    rewrite bind_cons, !fmap_cons. simpl. by rewrite IH.
Qed.

Lemma priority_violation_sound :
  priority_violation_rel co_trl (priority_violation co_trl).
Proof. exists (ranked_trl co_trl). split; [apply ranked_trl_sound|done]. Qed.

(** A row of a result, seen in the window order of its partition. *)
Lemma ranked_trl_rel_elem (out : list RankedRow) (k : Z * Z) (s : list Row)
    (x : RankedRow) :
  filter (λ x, part_key (base x) = k) out = row_number s →
  part_key (base x) = k →
  x ∈ out ↔ ∃ i : nat, s !! i = Some (base x) ∧ rnk x = Z.of_nat i + 1.
Proof.
  intros Hf Hk. rewrite <- elem_of_row_number, <- Hf, list_elem_of_filter.
  naive_solver.
Qed.

End RankedTrl.

Section RankingFacts.

Variables (co_trl : Table) (out : list RankedRow).
Hypothesis Hout : ranked_trl_rel co_trl out.

(** Ranks start at 1. *)
Lemma rnk_pos (x : RankedRow) : x ∈ out → 1 ≤ rnk x.
Proof.
  intros Hx.
  destruct (ranked_trl_rel_partition co_trl out (part_key (base x)) Hout)
    as (s & Hw & Hf).
  pose proof (proj1 (ranked_trl_rel_elem out _ s x Hf eq_refl) Hx)
    as (i & _ & Hr).
  lia.
Qed.

(** Every row of the table is numbered, and only those. *)
Lemma ranked_trl_rel_covers (r : Row) :
  r ∈ co_trl ↔ ∃ x, x ∈ out ∧ base x = r.
Proof.
  destruct (ranked_trl_rel_partition co_trl out (part_key r) Hout)
    as (s & Hw & Hf).
  split.
  - intros Hr.
    assert (Hs : r ∈ s) by (by apply (window_order_elem co_trl _ s r Hw)).
    apply list_elem_of_lookup in Hs as [i Hi].
    exists (mkRanked r (Z.of_nat i + 1)). split; [|done].
    apply (ranked_trl_rel_elem out (part_key r) s); [done..|].
    exists i. done.
  - intros (x & Hx & <-).
    pose proof (proj1 (ranked_trl_rel_elem out _ s x Hf eq_refl) Hx)
      as (i & Hi & _).
    apply list_elem_of_lookup_2 in Hi.
    by apply (window_order_elem co_trl _ s _ Hw) in Hi as [_ ?].
Qed.

(** Within a partition the ranks follow the ORDER BY clause. *)
Lemma rnk_order (x y : RankedRow) :
  x ∈ out → y ∈ out → part_key (base x) = part_key (base y) →
  (rnk x < rnk y → prio_le (base x) (base y))
  ∧ (prio_lt (base x) (base y) → rnk x < rnk y).
Proof.
  intros Hx Hy Hk.
  destruct (ranked_trl_rel_partition co_trl out (part_key (base x)) Hout)
    as (s & [_ Hs] & Hf).
  pose proof (proj1 (ranked_trl_rel_elem out _ s x Hf eq_refl) Hx)
    as (i & Hi & Hri).
  pose proof (proj1 (ranked_trl_rel_elem out _ s y Hf (eq_sym Hk)) Hy)
    as (j & Hj & Hrj).
  split.
  - intros Hlt. apply (StronglySorted_lookup_le prio_le s i j); [done|lia|done..].
  - intros Hlt. apply prio_lt_not_le in Hlt.
    destruct (decide (i < j)%nat) as [?|Hge]; [lia|]. exfalso. apply Hlt.
    destruct (decide (i = j)) as [->|Hne].
    + rewrite Hi in Hj. injection Hj as ->.
      destruct (total prio_le (base y) (base y)); done.
    + apply (StronglySorted_lookup_le prio_le s j i); [done|lia|done..].
Qed.

Lemma elem_of_rnk_gt_1 (x : RankedRow) :
  x ∈ rnk_gt_1 out ↔ x ∈ out ∧ rnk x ≠ 1.
Proof.
  unfold rnk_gt_1. rewrite elem_of_where, gt3_true. split.
  - intros [? ?]. split; [done|lia].
  - intros [Hx ?]. split; [|done]. pose proof (rnk_pos x Hx). lia.
Qed.

(** The violations of one partition are the rows of its window order but
    the first. *)
Lemma rnk_gt_1_partition (k : Z * Z) :
  group part_key co_trl k ≠ [] →
  ∃ c s, window_order (group part_key co_trl k) (c :: s)
         ∧ filter (λ x, part_key (base x) = k) out = row_number (c :: s)
         ∧ base <$> filter (λ x, part_key (base x) = k) (rnk_gt_1 out) = s.
Proof.
  intros Hne.
  destruct (ranked_trl_rel_partition co_trl out k Hout) as (s & Hw & Hf).
  destruct s as [|c s].
  { destruct Hw as [Hp _]. symmetry in Hp.
    by apply Permutation_nil_r in Hp. }
  exists c, s. split; [done|]. split; [done|].
  rewrite <- (rnk_gt_1_row_number c s), <- Hf.
  unfold rnk_gt_1, where_. rewrite !list_filter_filter. f_equal.
  apply list_filter_iff. naive_solver.
Qed.

End RankingFacts.

(** ** "Priority Violation": ranking, canonical row, determinism *)

End Collated1.

Example priority_violation_example :
  priority_violation [rowC; rowB; rowD; rowA]
  = [mkRanked rowB 2; mkRanked rowC 3].
Proof. reflexivity. Qed.

(** The quality of the review comes before the source: a row from
    'Cloud A' that is reviewed with quality 1 ranks in tier 1. *)
Example priority_violation_reviewed_cloud :
  tier rowB_reviewed = 1
  ∧ priority_violation [rowA; rowB_reviewed] = [mkRanked rowA 2].
Proof. split; reflexivity. Qed.

(** The comparison with 'Cloud A' is that of the collation: trailing blanks
    do not count, and neither does the case of the letters when the
    collation disregards it. *)
Example tier_collation :
  tier (col := binary_collation) row_cloud_small = 5
  ∧ tier (col := ci_collation) row_cloud_small = 3
  ∧ tier (col := binary_collation)
         (mkRow 1 2022 5 None None (Some "Cloud A ") None 20) = 3.
Proof. repeat split; reflexivity. Qed.

Section Collated2.

Context {col : Collation}.

(** C2: in every result of the ranking, within a (client_id,
    reference_year) group a row of a lower tier has a lower rank, and of two
    rows of one tier the one with the later acq_date has the lower rank,
    where the tier is 1 for manual_review_quality_id = 1, 2 for
    manual_review_quality_id = 2, and otherwise 3 for source = 'Cloud A', 4
    for source = 'Perplexity (Sonar)' and 5 for anything else; every row of
    the table is ranked, and a ranked row is in "Priority Violation" if and
    only if its rank is not 1, so that a row with a row of a lower tier in
    its group is in it.  In particular, for Row A with
    manual_review_quality_id = 1 and Row B of the same group with
    source = 'Cloud A', ranked below tier 1 as in the example, where it
    ranks tier 3: Row B is in "Priority Violation", and Row A is not when,
    as in the example, the group holds these two rows, or more generally
    when no other row of the group has manual_review_quality_id = 1. *)
Theorem C2_priority_ranking (co_trl : Table) (out : list RankedRow) :
  ranked_trl_rel co_trl out →
  (∀ r, (tier r = 1 ↔ manual_review_quality_id r = Some 1)
        ∧ (tier r = 2 ↔ manual_review_quality_id r = Some 2)
        ∧ (tier r = 3 ↔ manual_review_quality_id r ≠ Some 1
                        ∧ manual_review_quality_id r ≠ Some 2
                        ∧ source_is r "Cloud A")
        ∧ (tier r = 4 ↔ manual_review_quality_id r ≠ Some 1
                        ∧ manual_review_quality_id r ≠ Some 2
                        ∧ ¬ source_is r "Cloud A"
                        ∧ source_is r "Perplexity (Sonar)")
        ∧ (tier r = 5 ↔ manual_review_quality_id r ≠ Some 1
                        ∧ manual_review_quality_id r ≠ Some 2
                        ∧ ¬ source_is r "Cloud A"
                        ∧ ¬ source_is r "Perplexity (Sonar)"))
  ∧ (∀ x y, x ∈ out → y ∈ out → part_key (base x) = part_key (base y) →
            (tier (base x) < tier (base y) → rnk x < rnk y)
            ∧ (tier (base x) = tier (base y) →
               acq_date (base y) < acq_date (base x) → rnk x < rnk y))
  ∧ (∀ r, r ∈ co_trl ↔ ∃ x, x ∈ out ∧ base x = r)
  ∧ (∀ x, x ∈ rnk_gt_1 out ↔ x ∈ out ∧ rnk x ≠ 1)
  ∧ (∀ x y, x ∈ out → y ∈ out → part_key (base x) = part_key (base y) →
            tier (base x) < tier (base y) → y ∈ rnk_gt_1 out)
  ∧ (∀ a b, a ∈ co_trl → b ∈ co_trl → part_key a = part_key b →
            manual_review_quality_id a = Some 1 →
            source_is b "Cloud A" →
            manual_review_quality_id b ≠ Some 1 →
            b ∈ base <$> rnk_gt_1 out
            ∧ (group part_key co_trl (part_key a) ≡ₚ [a; b] →
               a ∉ base <$> rnk_gt_1 out)
            ∧ (filter (λ r, manual_review_quality_id r = Some 1)
                      (group part_key co_trl (part_key a)) = [a] →
               a ∉ base <$> rnk_gt_1 out)).
Proof.
  intros Hout. split; [apply tier_spec|].
  assert (Hord : ∀ x y, x ∈ out → y ∈ out →
            part_key (base x) = part_key (base y) →
            (tier (base x) < tier (base y) → rnk x < rnk y)
            ∧ (tier (base x) = tier (base y) →
               acq_date (base y) < acq_date (base x) → rnk x < rnk y)).
  { intros x y Hx Hy Hk.
    destruct (rnk_order co_trl out Hout x y Hx Hy Hk) as [_ Hlt].
    split; intros; apply Hlt; unfold prio_lt; lia. }
  assert (Hlow : ∀ x y, x ∈ out → y ∈ out →
            part_key (base x) = part_key (base y) →
            tier (base x) < tier (base y) → y ∈ rnk_gt_1 out).
  { intros x y Hx Hy Hk Ht.
    apply (elem_of_rnk_gt_1 co_trl out Hout). split; [done|].
    destruct (Hord x y Hx Hy Hk) as [Hlt _]. specialize (Hlt Ht).
    pose proof (rnk_pos co_trl out Hout x Hx). lia. }
  split; [done|].
  split; [apply (ranked_trl_rel_covers co_trl out Hout)|].
  split; [apply (elem_of_rnk_gt_1 co_trl out Hout)|].
  split; [done|].
  intros a b Ha Hb Hk Hqa Hsb Hqb.
  assert (Hta : tier a = 1) by by apply tier_spec.
  assert (Htb : 1 < tier b).
  { pose proof (tier_range b). pose proof (proj1 (tier_spec b)) as H1.
    destruct (decide (tier b = 1)) as [Hb1|?]; [|lia].
    by apply H1 in Hb1. }
  assert (Honly : filter (λ r, manual_review_quality_id r = Some 1)
                         (group part_key co_trl (part_key a)) = [a] →
                  a ∉ base <$> rnk_gt_1 out).
  { intros Hone Hin. apply list_elem_of_fmap in Hin as (x & -> & Hx).
    destruct (ranked_trl_rel_partition co_trl out (part_key (base x)) Hout)
      as (s & [Hp Hs] & Hf).
    apply (elem_of_rnk_gt_1 co_trl out Hout) in Hx as [Hx Hr].
    pose proof (proj1 (ranked_trl_rel_elem out _ s x Hf eq_refl) Hx)
      as (i & Hi & Hri).
    destruct i as [|i]; [lia|].
    destruct s as [|c s]; [done|].
    assert (Hc : manual_review_quality_id c = Some 1).
    { apply tier_spec.
      assert (Hle : prio_le c (base x)).
      { apply (StronglySorted_lookup_le prio_le (c :: s) 0 (S i));
          [done|lia|done|done]. }
      pose proof (tier_range c). unfold prio_le in Hle. lia. }
    assert (Hlen : (1 < length (filter (λ r, manual_review_quality_id r
                                             = Some 1%Z) (c :: s)))%nat).
    { apply length_filter_gt_1. exists 0%nat, (S i), c, (base x).
      repeat split; done. }
    rewrite Hp, Hone in Hlen. simpl in Hlen. lia. }
  split; [|split; [|done]].
  - apply (ranked_trl_rel_covers co_trl out Hout) in Ha as (xa & Hxa & <-).
    apply (ranked_trl_rel_covers co_trl out Hout) in Hb as (xb & Hxb & <-).
    apply list_elem_of_fmap. exists xb. split; [done|].
    apply (Hlow xa xb); [done..|lia].
  - intros Hgrp. apply Honly. apply Permutation_singleton_r.
    rewrite Hgrp, filter_cons_True, filter_cons_False, filter_nil by done.
    done.
Qed.

End Collated2.

Lemma C2_priority_ranking_witness :
  rowB ∈ base <$> rnk_gt_1 (ranked_trl [rowB; rowD; rowA])
  ∧ rowA ∉ base <$> rnk_gt_1 (ranked_trl [rowB; rowD; rowA]).
Proof.
  pose proof (C2_priority_ranking (col := binary_collation)
                [rowB; rowD; rowA]
                (ranked_trl [rowB; rowD; rowA]) (ranked_trl_sound _))
    as (_ & _ & _ & _ & _ & Hex).
  destruct (Hex rowA rowB) as (HB & HA & _).
  - apply list_elem_of_further, list_elem_of_further, list_elem_of_here.
  - apply list_elem_of_here.
  - reflexivity.
  - reflexivity.
  - vm_compute. reflexivity.
  - vm_compute. discriminate.
  - split; [exact HB|]. apply HA. vm_compute. apply perm_swap.
Defined.

Section Collated3.

Context {col : Collation}.

(** C3: in every result of "Priority Violation", the rows of a non-empty
    (client_id, reference_year) group are, counted as often as they occur,
    one canonical row, which no row of the group precedes on the sort keys,
    and the rows returned for the group; a row that is alone in its group is
    not returned. *)
Theorem C3_one_canonical_row_per_group (co_trl : Table)
    (res : list RankedRow) :
  priority_violation_rel co_trl res →
  (∀ k, group part_key co_trl k ≠ [] →
        ∃ c, group part_key co_trl k
               ≡ₚ c :: (base <$> filter (λ x, part_key (base x) = k) res)
             ∧ ∀ r, r ∈ group part_key co_trl k → prio_le c r)
  ∧ (∀ r, group part_key co_trl (part_key r) = [r] → r ∉ base <$> res).
Proof.
  intros (out & Hout & ->).
  assert (Hgrp : ∀ k, group part_key co_trl k ≠ [] →
    ∃ c, group part_key co_trl k
           ≡ₚ c :: (base <$> filter (λ x, part_key (base x) = k) (rnk_gt_1 out))
         ∧ ∀ r, r ∈ group part_key co_trl k → prio_le c r).
  { intros k Hne.
    destruct (rnk_gt_1_partition co_trl out Hout k Hne)
      as (c & s & [Hp Hs] & _ & ->).
    exists c. split; [done|]. intros r Hr. rewrite <- Hp in Hr.
    apply StronglySorted_inv in Hs as [_ Hc]. rewrite Forall_forall in Hc.
    apply elem_of_cons in Hr as [->|Hr]; [|by apply Hc].
    by destruct (total prio_le c c). }
  split; [done|].
  intros r Hr Hin. apply list_elem_of_fmap in Hin as (x & -> & Hx).
  destruct (Hgrp (part_key (base x))) as (c & Hp & _); [by rewrite Hr|].
  rewrite Hr in Hp. apply Permutation_length in Hp. simpl in Hp.
  assert (Hx' : x ∈ filter (λ y, part_key (base y) = part_key (base x))
                           (rnk_gt_1 out))
    by by apply list_elem_of_filter.
  destruct (filter _ (rnk_gt_1 out)); [by apply elem_of_nil in Hx'|].
  simpl in Hp. lia.
Qed.

End Collated3.

Lemma C3_one_canonical_row_per_group_witness :
  (∀ k, group part_key [rowC; rowB; rowD; rowA] k ≠ [] →
        ∃ c, group part_key [rowC; rowB; rowD; rowA] k
               ≡ₚ c :: (base <$> filter (λ x, part_key (base x) = k)
                                   (priority_violation [rowC; rowB; rowD; rowA]))
             ∧ ∀ r, r ∈ group part_key [rowC; rowB; rowD; rowA] k → prio_le c r)
  ∧ (∀ r, group part_key [rowC; rowB; rowD; rowA] (part_key r) = [r] →
          r ∉ base <$> priority_violation [rowC; rowB; rowD; rowA]).
Proof.
  apply (C3_one_canonical_row_per_group [rowC; rowB; rowD; rowA]
           (priority_violation [rowC; rowB; rowD; rowA])).
  apply priority_violation_sound.
Defined.

Section Collated4.

Context {col : Collation}.

Lemma NoDup_fmap_eq {A B} (f : A → B) (l : list A) (x y : A) :
  NoDup (f <$> l) → x ∈ l → y ∈ l → f x = f y → x = y.
Proof.
  intros Hnd Hx Hy Hf.
  apply list_elem_of_lookup in Hx as [i Hi].
  apply list_elem_of_lookup in Hy as [j Hj].
  assert (i = j) as ->.
  { apply (NoDup_lookup (f <$> l) i j (f x)); [done|..].
    - by rewrite list_lookup_fmap, Hi.
    - by rewrite list_lookup_fmap, Hj, Hf. }
  congruence.
Qed.

(** With distinct acq_date values a partition has one window order. *)
Lemma window_order_unique (p s1 s2 : list Row) :
  NoDup (acq_date <$> p) →
  window_order p s1 → window_order p s2 → s1 = s2.
Proof.
  intros Hnd [Hp1 Hs1] [Hp2 Hs2].
  apply (StronglySorted_unique_strong prio_le); [|done|done|by rewrite Hp1, Hp2].
  intros x1 x2 Hx1 Hx2 H12 H21. rewrite Hp1 in Hx1. rewrite Hp2 in Hx2.
  apply (NoDup_fmap_eq acq_date p); [done..|].
  unfold prio_le in H12, H21. lia.
Qed.

Lemma Forall2_functional {A B} (R : A → B → Prop) (l : list A)
    (k1 k2 : list B) :
  Forall (λ x, ∀ y1 y2, R x y1 → R x y2 → y1 = y2) l →
  Forall2 R l k1 → Forall2 R l k2 → k1 = k2.
Proof.
  intros Hfun H1. revert k2. induction H1 as [|x y l k1 Hxy H1 IH];
    intros k2 H2; inv H2; [done|].
  apply Forall_cons in Hfun as [Hx Hfun]. f_equal; [by eapply Hx|by apply IH].
Qed.

Lemma ranked_trl_rel_unique (co_trl : Table) (out1 out2 : list RankedRow) :
  distinct_acq_dates co_trl →
  ranked_trl_rel co_trl out1 → ranked_trl_rel co_trl out2 → out1 = out2.
Proof.
  intros Hd (ss1 & H1 & ->) (ss2 & H2 & ->). do 2 f_equal.
  eapply Forall2_functional; [|exact H1|exact H2].
  eapply Forall_impl; [exact Hd|]. simpl.
  intros k Hnd s1 s2. by apply window_order_unique.
Qed.

(** C4: when the acq_date values are pairwise distinct within each
    (client_id, reference_year) group, two evaluations of the ranking on one
    table number the rows alike: they agree on the rows of rank 1 and return
    the same "Priority Violation" rows, those of the executable numbering. *)
Theorem C4_ranking_deterministic (co_trl : Table)
    (out1 out2 : list RankedRow) :
  distinct_acq_dates co_trl →
  ranked_trl_rel co_trl out1 → ranked_trl_rel co_trl out2 →
  out1 = out2
  ∧ filter (λ x, rnk x = 1) out1 = filter (λ x, rnk x = 1) out2
  ∧ rnk_gt_1 out1 = rnk_gt_1 out2
  ∧ rnk_gt_1 out1 = priority_violation co_trl.
Proof.
  intros Hd H1 H2.
  rewrite (ranked_trl_rel_unique co_trl out1 out2 Hd H1 H2).
  rewrite (ranked_trl_rel_unique co_trl out2 (ranked_trl co_trl) Hd H2
             (ranked_trl_sound co_trl)).
  done.
Qed.

Lemma ranked_trl_rev_sound (co_trl : Table) :
  ranked_trl_rel co_trl (ranked_trl_rev co_trl).
Proof.
  unfold ranked_trl_rev, ranked_trl_rel.
  exists ((λ k, merge_sort prio_le (reverse (group part_key co_trl k)))
            <$> group_keys part_key co_trl).
  split.
  - induction (group_keys part_key co_trl) as [|k ks IH]; [constructor|].
    rewrite fmap_cons. constructor; [|done]. split.
    + by rewrite merge_sort_Permutation, reverse_Permutation.
    + apply StronglySorted_merge_sort; apply _.
  - induction (group_keys part_key co_trl) as [|k ks IH]; [done|].
    rewrite bind_cons, !fmap_cons. simpl. by rewrite IH.
Qed.

End Collated4.

Lemma C4_ranking_deterministic_witness :
  ranked_trl [rowC; rowB; rowD; rowA] = ranked_trl_rev [rowC; rowB; rowD; rowA]
  ∧ filter (λ x, rnk x = 1) (ranked_trl [rowC; rowB; rowD; rowA])
    = filter (λ x, rnk x = 1) (ranked_trl_rev [rowC; rowB; rowD; rowA])
  ∧ rnk_gt_1 (ranked_trl [rowC; rowB; rowD; rowA])
    = rnk_gt_1 (ranked_trl_rev [rowC; rowB; rowD; rowA])
  ∧ rnk_gt_1 (ranked_trl [rowC; rowB; rowD; rowA])
    = priority_violation [rowC; rowB; rowD; rowA].
Proof.
  apply (C4_ranking_deterministic [rowC; rowB; rowD; rowA]).
  - apply (bool_decide_unpack _). vm_compute. exact I.
  - apply ranked_trl_sound.
  - apply ranked_trl_rev_sound.
Defined.

(** Without the distinctness the two engines may disagree: two rows of one
    group with equal sort keys. *)
Example ranking_tie_two_results :
  ranked_trl_rel [tie1; tie2] (ranked_trl [tie1; tie2])
  ∧ ranked_trl_rel [tie1; tie2] (ranked_trl_rev [tie1; tie2])
  ∧ rnk_gt_1 (ranked_trl [tie1; tie2]) = [mkRanked tie2 2]
  ∧ rnk_gt_1 (ranked_trl_rev [tie1; tie2]) = [mkRanked tie1 2].
Proof.
  split; [apply ranked_trl_sound|]. split; [apply ranked_trl_rev_sound|].
  split; reflexivity.
Qed.

(** ** The columns of the results *)

Section Collated5.

Context {col : Collation}.

(** C10: every result of "Priority Violation" has the columns of the table
    and the column [rnk]; each of its rows has [rnk > 1], and [rnk] is the
    position, counted from 1, of the row in a window order of its
    (client_id, reference_year) group.  The results of the five other rules
    have the columns of the table, without [rnk]. *)
Theorem C10_result_columns (co_trl : Table) (q : Query) (df : DataFrame) :
  query_rel q co_trl df →
  (q = SelPriorityViolation →
   ∃ rows, df = RankedRows rows
           ∧ columns df = co_trl_columns ++ ["rnk"]
           ∧ ∀ x, x ∈ rows →
                  1 < rnk x
                  ∧ ∃ (s : list Row) (i : nat),
                      window_order
                        (group part_key co_trl (part_key (base x))) s
                      ∧ s !! i = Some (base x)
                      ∧ rnk x = Z.of_nat i + 1)
  ∧ (q ≠ SelPriorityViolation →
     ∃ rows, df = BaseRows rows
             ∧ columns df = co_trl_columns
             ∧ "rnk" ∉ columns df).
Proof.
  intros Hq. split.
  - intros ->. destruct Hq as (res & rows & (out & Hout & ->) & Hp & ->).
    exists rows. split; [done|]. split; [done|].
    intros x Hx. rewrite Hp in Hx. apply elem_of_where in Hx as [Hr Hx].
    apply gt3_true in Hr. split; [done|].
    destruct (ranked_trl_rel_partition co_trl out (part_key (base x)) Hout)
      as (s & Hw & Hf).
    pose proof (proj1 (ranked_trl_rel_elem out _ s x Hf eq_refl) Hx)
      as (i & Hi & Hri).
    by exists s, i.
  - intros Hne.
    assert (Hno : "rnk" ∉ co_trl_columns).
    { apply (bool_decide_unpack _). vm_compute. exact I. }
    destruct q; simpl in Hq; try done; destruct Hq as (rows & _ & ->);
      by exists rows.
Qed.

End Collated5.

Lemma C10_result_columns_witness :
  (SelPriorityViolation = SelPriorityViolation →
   ∃ rows, run_query SelPriorityViolation [rowC; rowB; rowD; rowA]
           = RankedRows rows
           ∧ columns (run_query SelPriorityViolation [rowC; rowB; rowD; rowA])
             = co_trl_columns ++ ["rnk"]
           ∧ ∀ x, x ∈ rows →
                  1 < rnk x
                  ∧ ∃ (s : list Row) (i : nat),
                      window_order
                        (group part_key [rowC; rowB; rowD; rowA]
                               (part_key (base x))) s
                      ∧ s !! i = Some (base x)
                      ∧ rnk x = Z.of_nat i + 1)
  ∧ (SelPriorityViolation ≠ SelPriorityViolation →
     ∃ rows, run_query SelPriorityViolation [rowC; rowB; rowD; rowA]
             = BaseRows rows
             ∧ columns (run_query SelPriorityViolation
                          [rowC; rowB; rowD; rowA]) = co_trl_columns
             ∧ "rnk" ∉ columns (run_query SelPriorityViolation
                                  [rowC; rowB; rowD; rowA])).
Proof.
  apply (C10_result_columns [rowC; rowB; rowD; rowA] SelPriorityViolation).
  simpl. exists (priority_violation [rowC; rowB; rowD; rowA]),
    (priority_violation [rowC; rowB; rowD; rowA]).
  split; [apply priority_violation_sound|]. split; reflexivity.
Defined.

Section Collated6.

Context {col : Collation}.

(** The executable results are results of the queries. *)
Lemma run_query_sound (q : Query) (co_trl : Table) :
  query_rel q co_trl (run_query q co_trl).
Proof.
  destruct q; simpl; try by eexists.
  exists (priority_violation co_trl), (priority_violation co_trl).
  split; [apply priority_violation_sound|done].
Qed.

(** * Further properties of the queries and of the loop *)

(** ** The partitions of a table *)

Section Groups.

Context {A K : Type} `{EqDecision K}.
Variable key : A → K.

Lemma mjoin_groups_nil (ks : list K) : mjoin (group key [] <$> ks) = [].
Proof. induction ks as [|k ks IH]; [done|]. by rewrite fmap_cons. Qed.

(** A row added to the table goes to the group of its key. *)
Lemma mjoin_groups_cons (a : A) (l : list A) (ks : list K) :
  NoDup ks →
  mjoin (group key (a :: l) <$> ks)
  ≡ₚ (if decide (key a ∈ ks) then [a] else []) ++ mjoin (group key l <$> ks).
Proof.
  induction 1 as [|k ks Hk Hnd IH]; [done|].
  rewrite !fmap_cons. simpl. rewrite IH. unfold group at 1.
  rewrite filter_cons. fold (group key l k).
  destruct (decide (key a = k)) as [<-|Hne].
  - rewrite (decide_False (P := key a ∈ ks)) by done.
    rewrite (decide_True (P := key a ∈ key a :: ks))
      by apply list_elem_of_here.
    done.
  - destruct (decide (key a ∈ ks)) as [Hin|Hin].
    + rewrite (decide_True (P := key a ∈ k :: ks))
        by by apply list_elem_of_further.
      simpl. by rewrite Permutation_middle.
    + rewrite (decide_False (P := key a ∈ k :: ks)); [done|].
      intros [?|?]%elem_of_cons; done.
Qed.

Lemma mjoin_groups_Permutation_gen (l : list A) (ks : list K) :
  NoDup ks → (∀ r, r ∈ l → key r ∈ ks) →
  mjoin (group key l <$> ks) ≡ₚ l.
Proof.
  intros Hnd. induction l as [|a l IH]; intros Hks.
  - by rewrite mjoin_groups_nil.
  - rewrite mjoin_groups_cons by done.
    rewrite decide_True by apply Hks, list_elem_of_here.
    simpl. rewrite IH; [done|]. intros r Hr. by apply Hks, list_elem_of_further.
Qed.

(** GROUP BY and PARTITION BY split the table: the groups, put end to end,
    hold the rows of the table, each as often as it occurs. *)
Lemma mjoin_groups_Permutation (l : list A) :
  mjoin (group key l <$> group_keys key l) ≡ₚ l.
Proof.
  apply mjoin_groups_Permutation_gen; [apply NoDup_group_keys|].
  intros r Hr. apply elem_of_group_keys. eauto.
Qed.

Lemma group_nonempty (l : list A) (k : K) :
  k ∈ group_keys key l → group key l k ≠ [].
Proof.
  intros (r & Hr & Hk)%elem_of_group_keys Hnil.
  assert (Hin : r ∈ group key l k) by by apply elem_of_group.
  rewrite Hnil in Hin. by apply elem_of_nil in Hin.
Qed.

End Groups.

Lemma length_remove_dups_le {A} `{EqDecision A} (l : list A) :
  (length (remove_dups l) ≤ length l)%nat.
Proof.
  induction l as [|x l IH]; simpl; [lia|]. case_decide; simpl; lia.
Qed.

Lemma length_remove_dups_NoDup {A} `{EqDecision A} (l : list A) :
  length (remove_dups l) = length l ↔ NoDup l.
Proof.
  induction l as [|x l IH]; simpl.
  - split; [constructor|done].
  - pose proof (length_remove_dups_le l). rewrite NoDup_cons.
    case_decide as Hx; simpl.
    + split; [lia|]. by intros [? _].
    + rewrite <- IH. split; [intros ?; split; [done|lia] | intros [_ ?]; lia].
Qed.

(** ** The CTE [ranked_trl] as a whole *)

Section RankedTrlWhole.

Variable co_trl : Table.

Lemma base_ranked_partitions (ks : list (Z * Z)) (ss : list (list Row)) :
  Forall2 (λ k s, window_order (group part_key co_trl k) s) ks ss →
  base <$> mjoin (row_number <$> ss) ≡ₚ mjoin (group part_key co_trl <$> ks).
Proof.
  induction 1 as [|k s ks ss [Hp _] Hall IH]; [done|].
  rewrite !fmap_cons. simpl. by rewrite fmap_app, base_row_number, IH, Hp.
Qed.

Lemma length_rnk_gt_1_partitions (ks : list (Z * Z)) (ss : list (list Row)) :
  Forall2 (λ k s, window_order (group part_key co_trl k) s) ks ss →
  Forall (λ k, group part_key co_trl k ≠ []) ks →
  (length (rnk_gt_1 (mjoin (row_number <$> ss))) + length ks
   = length (mjoin (group part_key co_trl <$> ks)))%nat.
Proof.
  induction 1 as [|k s ks ss [Hp _] Hall IH]; intros Hne; [done|].
  apply Forall_cons in Hne as [Hk Hne]. specialize (IH Hne).
  rewrite !fmap_cons. simpl. unfold rnk_gt_1, where_ in *.
  rewrite filter_app, !length_app, <- Hp.
  destruct s as [|c s].
  { symmetry in Hp. by apply Permutation_nil_r in Hp. }
  pose proof (rnk_gt_1_row_number c s) as Hlen.
  apply (f_equal length) in Hlen. rewrite length_fmap in Hlen.
  unfold rnk_gt_1, where_ in Hlen. rewrite Hlen. cbn [length]. lia.
Qed.

End RankedTrlWhole.

(** Without [rnk], a result of [ranked_trl] holds the rows of the table. *)
Lemma base_ranked_trl_rel (co_trl : Table) (out : list RankedRow) :
  ranked_trl_rel co_trl out → base <$> out ≡ₚ co_trl.
Proof.
  intros (ss & Hall & ->).
  rewrite (base_ranked_partitions co_trl _ _ Hall).
  apply mjoin_groups_Permutation.
Qed.

(** X1: the numbering neither loses nor repeats a row: without [rnk], every
    result of [ranked_trl] holds the rows of the table, each as often as it
    occurs there. *)
Theorem X1_ranked_trl_keeps_rows (co_trl : Table) (out : list RankedRow) :
  ranked_trl_rel co_trl out → base <$> out ≡ₚ co_trl.
Proof. apply base_ranked_trl_rel. Qed.

End Collated6.

Lemma X1_ranked_trl_keeps_rows_witness :
  base <$> ranked_trl [rowC; rowB; rowD; rowA] ≡ₚ [rowC; rowB; rowD; rowA].
Proof.
  apply (X1_ranked_trl_keeps_rows [rowC; rowB; rowD; rowA]).
  apply ranked_trl_sound.
Defined.

Section Collated7.

Context {col : Collation}.

Lemma length_priority_violation (co_trl : Table) (res : list RankedRow) :
  priority_violation_rel co_trl res →
  (length res + length (group_keys part_key co_trl) = length co_trl)%nat.
Proof.
  intros (out & (ss & Hall & ->) & ->).
  rewrite (length_rnk_gt_1_partitions co_trl _ _ Hall).
  - apply Permutation_length, mjoin_groups_Permutation.
  - apply Forall_forall. intros k Hk. by apply group_nonempty.
Qed.

(** X2: "Priority Violation" returns all rows but one per (client_id,
    reference_year) group: the number of returned rows and the number of
    groups add up to the number of rows of the table. *)
Theorem X2_priority_violation_count (co_trl : Table)
    (res : list RankedRow) :
  priority_violation_rel co_trl res →
  (length res + length (group_keys part_key co_trl) = length co_trl)%nat.
Proof. apply length_priority_violation. Qed.

End Collated7.

Lemma X2_priority_violation_count_witness :
  (length (priority_violation [rowC; rowB; rowD; rowA])
   + length (group_keys part_key [rowC; rowB; rowD; rowA])
   = length [rowC; rowB; rowD; rowA])%nat.
Proof.
  apply (X2_priority_violation_count [rowC; rowB; rowD; rowA]).
  apply priority_violation_sound.
Defined.

Section Collated8.

Context {col : Collation}.

(** X3: "Priority Violation" returns no row if and only if no two rows of
    the table share (client_id, reference_year). *)
Theorem X3_priority_violation_empty_iff (co_trl : Table)
    (res : list RankedRow) :
  priority_violation_rel co_trl res →
  res = [] ↔ NoDup (part_key <$> co_trl).
Proof.
  intros Hres. pose proof (length_priority_violation co_trl res Hres) as Hlen.
  rewrite <- length_remove_dups_NoDup, length_fmap.
  unfold group_keys in Hlen. split.
  - intros ->. simpl in Hlen. lia.
  - intros Heq. destruct res; [done|]. simpl in Hlen. lia.
Qed.

End Collated8.

Lemma X3_priority_violation_empty_iff_witness :
  priority_violation [rowD; rowA] = []
  ↔ NoDup (part_key <$> [rowD; rowA]).
Proof.
  apply (X3_priority_violation_empty_iff [rowD; rowA]).
  apply priority_violation_sound.
Defined.

Section Collated9.

Context {col : Collation}.

Lemma fmap_rnk_imap (g : nat → Z) (s : list Row) :
  rnk <$> imap (λ i r, mkRanked r (g i)) s = g <$> seq 0 (length s).
Proof.
  revert g. induction s as [|r s IH]; intros g; [done|].
  rewrite imap_cons. cbn [length seq fmap list_fmap rnk]. f_equal.
  rewrite <- fmap_S_seq, <- list_fmap_compose. apply (IH (g ∘ S)).
Qed.

Lemma rnk_row_number (s : list Row) :
  rnk <$> row_number s = seqZ 1 (Z.of_nat (length s)).
Proof.
  unfold row_number, seqZ. rewrite Nat2Z.id. apply fmap_rnk_imap.
Qed.

(** X4: in every result of [ranked_trl], the ranks of a (client_id,
    reference_year) group of n rows are 1, 2, ..., n, each given once. *)
Theorem X4_ranks_one_to_n (co_trl : Table) (out : list RankedRow)
    (k : Z * Z) :
  ranked_trl_rel co_trl out →
  rnk <$> filter (λ x, part_key (base x) = k) out
  = seqZ 1 (Z.of_nat (length (group part_key co_trl k))).
Proof.
  intros Hout.
  destruct (ranked_trl_rel_partition co_trl out k Hout) as (s & [Hp _] & ->).
  by rewrite rnk_row_number, Hp.
Qed.

End Collated9.

Lemma X4_ranks_one_to_n_witness :
  rnk <$> filter (λ x, part_key (base x) = (1, 2022))
                 (ranked_trl [rowC; rowB; rowD; rowA])
  = seqZ 1 (Z.of_nat (length (group part_key [rowC; rowB; rowD; rowA]
                                    (1, 2022)))).
Proof.
  apply (X4_ranks_one_to_n [rowC; rowB; rowD; rowA]).
  apply ranked_trl_sound.
Defined.

(** ** The join of "Invalid Backward Extrapolation" *)

Section Collated10.

Context {col : Collation}.

Lemma min_agg_Permutation (l l' : list Z) :
  l ≡ₚ l' → min_agg l = min_agg l'.
Proof.
  intros Hp. destruct (min_agg l) as [m|] eqn:E.
  - symmetry. apply min_agg_Some. apply min_agg_Some in E as [Hm Hle].
    split; [by rewrite <- Hp|]. intros y Hy. apply Hle. by rewrite Hp.
  - destruct l as [|x l]; [|done]. apply Permutation_nil_l in Hp.
    by subst.
Qed.

(** The least year of the rows of the client of [r]. *)
Lemma first_year_match (co_trl : Table) (t : Row) (ks : list Z) :
  NoDup ks →
  where_ (λ f : Z * option Z,
            eq3 (Some (client_id t)) (Some f.1)
            &&& eq3 (Some (reference_year t)) f.2)
         ((λ c, (c, min_agg (reference_year <$> group client_id co_trl c)))
            <$> ks)
  = if decide (client_id t ∈ ks
               ∧ min_agg (reference_year
                            <$> group client_id co_trl (client_id t))
                 = Some (reference_year t))
    then [(client_id t, Some (reference_year t))] else [].
Proof.
  unfold where_. set (m := λ c, min_agg (reference_year <$> group client_id co_trl c)).
  assert (Hon : ∀ c, holds (eq3 (Some (client_id t)) (Some c)
                            &&& eq3 (Some (reference_year t)) (m c))
                     ↔ c = client_id t ∧ m c = Some (reference_year t)).
  { intros c. unfold holds. rewrite and3_true, !eq3_true. split.
    - intros [(x & [= <-] & [= <-]) (y & [= <-] & ?)]. done.
    - intros [-> ->]. split; eauto. }
  induction 1 as [|c ks Hc Hnd IH].
  - rewrite decide_False; [done|]. intros [H _]. by apply elem_of_nil in H.
  - rewrite fmap_cons, filter_cons, IH. cbn [fst snd].
    destruct (decide (holds _)) as [Hh|Hh];
      [apply (proj1 (Hon c)) in Hh
      |pose proof (λ H, Hh (proj2 (Hon c) H)) as Hh'; clear Hh].
    + destruct Hh as [-> Hm]. unfold m in Hm.
      rewrite (decide_False (P := client_id t ∈ ks ∧ _)) by naive_solver.
      rewrite decide_True; [by rewrite Hm|].
      split; [apply list_elem_of_here|done].
    + destruct (decide (client_id t ∈ ks ∧ _)) as [[Hin Hm]|Hno].
      * rewrite decide_True; [done|].
        split; [by apply list_elem_of_further|done].
      * rewrite decide_False; [done|]. intros [Hin Hm].
        apply elem_of_cons in Hin as [Heq|Hin]; [apply Hh'; by subst c|by apply Hno].
Qed.

Lemma min_agg_group_key (co_trl : Table) (c y : Z) :
  min_agg (reference_year <$> group client_id co_trl c) = Some y →
  c ∈ group_keys client_id co_trl.
Proof.
  intros Hm. apply min_year_of_client in Hm as [(r & Hr & Hc & _) _].
  apply elem_of_group_keys. eauto.
Qed.

(** The query keeps, in table order and as often as they occur, the rows at
    the least year of their client that are extrapolated with a [trl_id]
    other than 9: the join with [first_year] matches a row once at most. *)
Lemma invalid_backward_extrapolation_filter_gen (co_trl l : Table) :
  fst <$>
    where_ (λ tf, eq3 (is_extrapolated tf.1) (Some 1)
                  &&& neq3 (Some (trl_id tf.1)) (Some 9))
      (join (λ t f, eq3 (Some (client_id t)) (Some f.1)
                    &&& eq3 (Some (reference_year t)) f.2)
            l (first_year co_trl))
  = filter (λ r, min_agg (reference_year
                            <$> group client_id co_trl (client_id r))
                 = Some (reference_year r)
                 ∧ is_extrapolated r = Some 1 ∧ trl_id r ≠ 9) l.
Proof.
  induction l as [|a l IH]; [done|].
  unfold join in *. rewrite bind_cons. unfold where_ at 1.
  rewrite filter_app, fmap_app. unfold where_ in IH at 1. rewrite IH.
  rewrite filter_cons. f_equal.
  unfold first_year.
  rewrite (first_year_match co_trl a _ (NoDup_group_keys client_id co_trl)).
  assert (Hw : holds (eq3 (is_extrapolated a) (Some 1)
                      &&& neq3 (Some (trl_id a)) (Some 9))
               ↔ is_extrapolated a = Some 1 ∧ trl_id a ≠ 9).
  { unfold holds. rewrite and3_true, eq3_true, neq3_true. split.
    - intros [(x & -> & [= <-]) (x' & y' & [= <-] & [= <-] & ?)]. done.
    - intros [-> ?]. split; [by eauto|]. by exists (trl_id a), 9. }
  case_decide as Hm.
  - rewrite bind_singleton, filter_cons. cbn [fst snd].
    destruct Hm as [_ Hm].
    repeat case_decide; try done; exfalso; naive_solver.
  - rewrite decide_False; [done|]. intros (Hmin & _). apply Hm.
    split; [|done]. by eapply min_agg_group_key.
Qed.

Lemma invalid_backward_extrapolation_filter (co_trl : Table) :
  invalid_backward_extrapolation co_trl
  = filter (λ r, min_agg (reference_year
                            <$> group client_id co_trl (client_id r))
                 = Some (reference_year r)
                 ∧ is_extrapolated r = Some 1 ∧ trl_id r ≠ 9) co_trl.
Proof. apply invalid_backward_extrapolation_filter_gen. Qed.

(** ** What every rule returns *)

Lemma where_sublist {A} (c : A → tri) (t : list A) : where_ c t `sublist_of` t.
Proof. apply sublist_filter. Qed.

(** X5: no rule invents or repeats a row: whatever a rule returns holds,
    without [rnk], rows of the table only, none more often than the table
    does. *)
Theorem X5_results_rows_of_table (q : Query) (co_trl : Table)
    (df : DataFrame) :
  query_rel q co_trl df → rows_of df ⊆+ co_trl.
Proof.
  intros Hq. destruct q; simpl in Hq.
  - destruct Hq as (rows & Hp & ->). simpl. rewrite Hp.
    apply sublist_submseteq, where_sublist.
  - destruct Hq as (rows & Hp & ->). simpl. rewrite Hp.
    rewrite invalid_backward_extrapolation_filter.
    apply sublist_submseteq, sublist_filter.
  - destruct Hq as (rows & Hp & ->). simpl. rewrite Hp.
    rewrite duplicate_trl_entries_filter.
    apply sublist_submseteq, sublist_filter.
  - destruct Hq as (res & rows & (out & Hout & ->) & Hp & ->). simpl.
    rewrite Hp.
    rewrite <- (base_ranked_trl_rel co_trl out Hout).
    apply sublist_submseteq, fmap_sublist, where_sublist.
  - destruct Hq as (rows & Hp & ->). simpl. rewrite Hp.
    apply sublist_submseteq, where_sublist.
  - destruct Hq as (rows & Hp & ->). simpl. rewrite Hp.
    apply sublist_submseteq, where_sublist.
Qed.

End Collated10.

Lemma X5_results_rows_of_table_witness :
  rows_of (run_query SelPriorityViolation [rowC; rowB; rowD; rowA])
    ⊆+ [rowC; rowB; rowD; rowA].
Proof.
  apply (X5_results_rows_of_table SelPriorityViolation
           [rowC; rowB; rowD; rowA]).
  apply run_query_sound.
Defined.

Section Collated11.

Context {col : Collation}.

Lemma where_idemp {A} (c : A → tri) (t : list A) :
  where_ c (where_ c t) = where_ c t.
Proof.
  unfold where_. apply filter_Forall_id, Forall_forall.
  intros x Hx. by apply list_elem_of_filter in Hx as [? _].
Qed.

Lemma duplicate_trl_entries_idemp (co_trl : Table) :
  duplicate_trl_entries (duplicate_trl_entries co_trl)
  = duplicate_trl_entries co_trl.
Proof.
  rewrite (duplicate_trl_entries_filter (duplicate_trl_entries co_trl)).
  apply filter_Forall_id, Forall_forall. intros r Hr.
  rewrite duplicate_trl_entries_filter in Hr |- *.
  apply list_elem_of_filter in Hr as [Hlen Hr].
  unfold group in *. rewrite list_filter_filter.
  rewrite (list_filter_iff _ (λ x, triple x = triple r)); [done|].
  intros x. split; [naive_solver|]. intros Hx. split; [done|].
  by rewrite Hx.
Qed.

Lemma invalid_backward_extrapolation_idemp (co_trl : Table) :
  invalid_backward_extrapolation (invalid_backward_extrapolation co_trl)
  = invalid_backward_extrapolation co_trl.
Proof.
  rewrite (invalid_backward_extrapolation_filter
             (invalid_backward_extrapolation co_trl)).
  apply filter_Forall_id, Forall_forall. intros r Hr.
  pose proof Hr as Hr'.
  apply elem_of_invalid_backward_extrapolation in Hr'
    as (Hin & Hmin & He & Hid).
  split; [|done]. apply min_year_of_client. split; [by eauto|].
  intros r' Hr' Hc.
  apply elem_of_invalid_backward_extrapolation in Hr' as (Hin' & _).
  by apply Hmin.
Qed.

(** X6: each of the five rules without a window function, run on the rows
    it returned, returns all of them again. *)
Theorem X6_rule_idempotent (q : Query) (co_trl : Table) :
  q ≠ SelPriorityViolation →
  run_query q (rows_of (run_query q co_trl)) = run_query q co_trl.
Proof.
  intros Hne. destruct q; try done; simpl; f_equal.
  - apply where_idemp.
  - apply invalid_backward_extrapolation_idemp.
  - apply duplicate_trl_entries_idemp.
  - apply where_idemp.
  - apply where_idemp.
Qed.

End Collated11.

Lemma X6_rule_idempotent_witness :
  run_query SelDuplicateTrlEntries
    (rows_of (run_query SelDuplicateTrlEntries [dup_a; lone; dup_b; dup_c]))
  = run_query SelDuplicateTrlEntries [dup_a; lone; dup_b; dup_c].
Proof.
  apply (X6_rule_idempotent SelDuplicateTrlEntries [dup_a; lone; dup_b; dup_c]).
  discriminate.
Defined.

(** "Priority Violation" is not such a rule: run on its own result it drops
    one more row of each group. *)
Example priority_violation_not_idemp :
  rows_of (run_query SelPriorityViolation [rowC; rowB; rowD; rowA])
  = [rowB; rowC]
  ∧ rows_of (run_query SelPriorityViolation [rowB; rowC]) = [rowC].
Proof. split; reflexivity. Qed.

Section Collated12.

Context {col : Collation}.

Lemma where_Permutation {A} (c : A → tri) (t t' : list A) :
  t ≡ₚ t' → where_ c t ≡ₚ where_ c t'.
Proof. intros Hp. unfold where_. by rewrite Hp. Qed.

Lemma duplicate_trl_entries_Permutation (co_trl co_trl' : Table) :
  co_trl ≡ₚ co_trl' →
  duplicate_trl_entries co_trl ≡ₚ duplicate_trl_entries co_trl'.
Proof.
  intros Hp. rewrite !duplicate_trl_entries_filter.
  rewrite (list_filter_iff _
             (λ r, (1 < length (group triple co_trl' (triple r)))%nat)).
  - by rewrite Hp.
  - intros r. unfold group. by rewrite Hp.
Qed.

Lemma invalid_backward_extrapolation_Permutation (co_trl co_trl' : Table) :
  co_trl ≡ₚ co_trl' →
  invalid_backward_extrapolation co_trl
  ≡ₚ invalid_backward_extrapolation co_trl'.
Proof.
  intros Hp. rewrite !invalid_backward_extrapolation_filter.
  rewrite (list_filter_iff _
    (λ r, min_agg (reference_year
                     <$> group client_id co_trl' (client_id r))
          = Some (reference_year r)
          ∧ is_extrapolated r = Some 1 ∧ trl_id r ≠ 9)).
  - by rewrite Hp.
  - intros r.
    rewrite (min_agg_Permutation
               (reference_year <$> group client_id co_trl (client_id r))
               (reference_year <$> group client_id co_trl' (client_id r)));
      [done|].
    unfold group. by rewrite Hp.
Qed.

(** X7: the five rules without a window function do not depend on the order
    of the rows: tables with the same rows give results with the same
    rows. *)
Theorem X7_rule_order_independent (q : Query) (co_trl co_trl' : Table) :
  q ≠ SelPriorityViolation → co_trl ≡ₚ co_trl' →
  rows_of (run_query q co_trl) ≡ₚ rows_of (run_query q co_trl').
Proof.
  intros Hne Hp. destruct q; try done; simpl.
  - by apply where_Permutation.
  - by apply invalid_backward_extrapolation_Permutation.
  - by apply duplicate_trl_entries_Permutation.
  - by apply where_Permutation.
  - by apply where_Permutation.
Qed.

End Collated12.

Lemma X7_rule_order_independent_witness :
  rows_of (run_query SelInvalidBackwardExtrapolation
             [client3_2021; client3_2020; client3_2020_trl9])
  ≡ₚ rows_of (run_query SelInvalidBackwardExtrapolation
                [client3_2020; client3_2021; client3_2020_trl9]).
Proof.
  apply (X7_rule_order_independent SelInvalidBackwardExtrapolation).
  - discriminate.
  - apply perm_swap.
Defined.

(** ** "Priority Violation" and the order of the rows *)

Section Collated13.

Context {col : Collation}.

Lemma Forall2_Permutation_l {A B} (R : A → B → Prop) (l l' : list A)
    (k : list B) :
  l ≡ₚ l' → Forall2 R l k → ∃ k', k ≡ₚ k' ∧ Forall2 R l' k'.
Proof.
  intros Hp. revert k.
  induction Hp as [|x l l' Hp IH|x y l|l l' l'' Hp1 IH1 Hp2 IH2]; intros k Hk.
  - inv Hk. by exists [].
  - inv Hk. destruct (IH _ ltac:(done)) as (k' & Hk' & Hall).
    eexists (_ :: k'). split; [by rewrite Hk'|by constructor].
  - inv Hk. match goal with H : Forall2 _ (_ :: _) _ |- _ => inv H end.
    eexists (_ :: _ :: _). split; [apply perm_swap|by repeat constructor].
  - destruct (IH1 _ Hk) as (k1 & Hk1 & Hall1).
    destruct (IH2 _ Hall1) as (k2 & Hk2 & Hall2).
    exists k2. split; [by rewrite Hk1|done].
Qed.

Lemma group_keys_Permutation {A K} `{EqDecision K} (key : A → K)
    (l l' : list A) :
  l ≡ₚ l' → group_keys key l ≡ₚ group_keys key l'.
Proof.
  intros Hp. apply NoDup_Permutation; try apply NoDup_group_keys.
  intros k. rewrite !elem_of_group_keys. by setoid_rewrite Hp.
Qed.

(** X8: the results "Priority Violation" may return do not depend on the
    order of the rows of the table: for tables with the same rows, each
    result over the one has the rows of a result over the other. *)
Theorem X8_priority_violation_order_independent (co_trl co_trl' : Table)
    (res : list RankedRow) :
  co_trl ≡ₚ co_trl' → priority_violation_rel co_trl res →
  ∃ res', priority_violation_rel co_trl' res' ∧ res ≡ₚ res'.
Proof.
  intros Hp (out & (ss & Hall & ->) & ->).
  destruct (Forall2_Permutation_l _ _ _ _
              (group_keys_Permutation part_key _ _ Hp) Hall)
    as (ss' & Hss & Hall').
  exists (rnk_gt_1 (mjoin (row_number <$> ss'))). split.
  - exists (mjoin (row_number <$> ss')). split; [|done].
    exists ss'. split; [|done].
    eapply Forall2_impl; [exact Hall'|]. simpl.
    intros k s [Hps Hs]. split; [|done]. rewrite Hps. unfold group.
    by rewrite Hp.
  - unfold rnk_gt_1, where_. by rewrite Hss.
Qed.

End Collated13.

Lemma X8_priority_violation_order_independent_witness :
  ∃ res', priority_violation_rel [rowB; rowC; rowD; rowA] res'
          ∧ priority_violation [rowC; rowB; rowD; rowA] ≡ₚ res'.
Proof.
  apply (X8_priority_violation_order_independent [rowC; rowB; rowD; rowA]).
  - apply perm_swap.
  - apply priority_violation_sound.
Defined.

(** ** The rationale rules taken together *)

(** X9: "Extrapolated Rows with Rationale" shares no row with either rule on
    NULL rationales, and a row returned by "Null Rationale not Extrapolated
    (≠ 2025)" but not by "Invalid Non-Extrapolated Null Rationale" has an
    [is_extrapolated] that is NULL or neither 0 nor 1. *)
Theorem X9_rationale_rules_overlap (co_trl : Table) (r : Row) :
  (r ∈ extrapolated_rows_with_rationale co_trl →
   (r ∉ invalid_non_extrapolated_null_rationale co_trl)
   ∧ (r ∉ null_rationale_not_extrapolated co_trl))
  ∧ (r ∈ null_rationale_not_extrapolated co_trl →
     r ∉ invalid_non_extrapolated_null_rationale co_trl →
     is_extrapolated r ≠ Some 0 ∧ is_extrapolated r ≠ Some 1).
Proof.
  rewrite elem_of_extrapolated_rows_with_rationale,
    elem_of_invalid_non_extrapolated_null_rationale,
    elem_of_null_rationale_not_extrapolated.
  naive_solver.
Qed.

(** ** The loop, with an engine that answers or fails *)

(** The rules of the catalog have file names of their own. *)
Lemma file_name_inj_keys (x y : string) :
  x ∈ keys → y ∈ keys →
  replace_space x +:+ ".csv" = replace_space y +:+ ".csv" → x = y.
Proof.
  apply (NoDup_fmap_eq (λ name, replace_space name +:+ ".csv") keys).
  apply (bool_decide_unpack _). vm_compute. exact I.
Qed.

Lemma NoDup_file_names (selected_checks : list string) :
  Forall (λ name, name ∈ keys) selected_checks → NoDup selected_checks →
  NoDup ((λ name, replace_space name +:+ ".csv") <$> selected_checks).
Proof.
  intros Hkeys Hnd. apply NoDup_fmap_2_strong; [|done].
  rewrite Forall_forall in Hkeys.
  intros x y Hx Hy. apply file_name_inj_keys; by apply Hkeys.
Qed.

Section Loop.

Variable engine : Query → exn + DataFrame.

Lemma run_check_after_fresh (made : list string) (name : string) (c : Check)
    (df : DataFrame) :
  getitem checks name = Some c → engine (query c) = inr df →
  replace_space name +:+ ".csv" ∉ made →
  run_check_after engine made name
  = mkOutcome
      ([st_subheader name; st_markdown (description c);
        pd_read_sql (query c); st_info (len df); st_dataframe df]
       ++ (if empty df then []
           else [st_download_button (replace_space name +:+ ".csv")]))
      None.
Proof.
  intros Hc He Hf. unfold run_check_after. rewrite Hc, He.
  rewrite decide_False; [done|]. by intros [_ ?].
Qed.

Lemma run_check_answered (name : string) (c : Check) (df : DataFrame) :
  getitem checks name = Some c → engine (query c) = inr df →
  run_check engine name
  = mkOutcome
      ([st_subheader name; st_markdown (description c);
        pd_read_sql (query c); st_info (len df); st_dataframe df]
       ++ (if empty df then []
           else [st_download_button (replace_space name +:+ ".csv")]))
      None.
Proof.
  intros Hc He. apply run_check_after_fresh; [done..|].
  intros H. by apply elem_of_nil in H.
Qed.

Lemma run_check_after_failed (made : list string) (name : string)
    (c : Check) (e : exn) :
  getitem checks name = Some c → engine (query c) = inl e →
  run_check_after engine made name
  = mkOutcome [st_subheader name; st_markdown (description c);
               pd_read_sql (query c)] (Some e).
Proof. intros Hc He. unfold run_check_after. by rewrite Hc, He. Qed.

(** A turn for a rule of the catalog submits the query of the rule, whether
    the engine answers or not and whether the button is refused or not. *)
Lemma submitted_run_check_after (made : list string) (name : string)
    (c : Check) :
  getitem checks name = Some c →
  submitted (run_check_after engine made name) = [query c].
Proof.
  intros Hc. unfold run_check_after. rewrite Hc.
  destruct (engine (query c)) as [e|df]; [done|].
  case_decide; [done|]. unfold submitted. simpl. by destruct (empty df).
Qed.

Lemma buttons_run_check_after_fresh (made : list string) (name : string)
    (c : Check) (df : DataFrame) :
  getitem checks name = Some c → engine (query c) = inr df →
  replace_space name +:+ ".csv" ∉ made →
  buttons (calls (run_check_after engine made name))
  = if empty df then [] else [replace_space name +:+ ".csv"].
Proof.
  intros Hc He Hf. rewrite (run_check_after_fresh made name c df Hc He Hf).
  unfold buttons. simpl. by destruct (empty df).
Qed.

Lemma run_loop_after_cons (made : list string) (name : string)
    (rest : list string) :
  raised (run_check_after engine made name) = None →
  submitted (run_loop_after engine made (name :: rest))
  = submitted (run_check_after engine made name)
    ++ submitted (run_loop_after engine
                    (made ++ buttons (calls (run_check_after engine made name)))
                    rest)
  ∧ raised (run_loop_after engine made (name :: rest))
    = raised (run_loop_after engine
                (made ++ buttons (calls (run_check_after engine made name)))
                rest).
Proof.
  intros Hr. simpl. rewrite Hr. split; [|done].
  unfold submitted. simpl. apply omap_app.
Qed.

(** The names still to come have file names that no button made so far
    has, when they have file names of their own. *)
Lemma fresh_after_turn (made : list string) (name : string)
    (rest : list string) (df : DataFrame) :
  NoDup ((λ n, replace_space n +:+ ".csv") <$> name :: rest) →
  (∀ n, n ∈ name :: rest → replace_space n +:+ ".csv" ∉ made) →
  ∀ n, n ∈ rest →
       replace_space n +:+ ".csv"
         ∉ made ++ (if empty df then [] else [replace_space name +:+ ".csv"]).
Proof.
  rewrite fmap_cons. intros [Hname _]%NoDup_cons Hfresh n Hn.
  rewrite not_elem_of_app. split; [by apply Hfresh, list_elem_of_further|].
  destruct (empty df); [by intros ?%elem_of_nil|].
  intros Heq%list_elem_of_singleton. apply Hname. rewrite <- Heq.
  by apply (list_elem_of_fmap_2 (λ n, replace_space n +:+ ".csv")).
Qed.

Lemma run_loop_after_all_answered (made selected_checks : list string) :
  (∀ q, ∃ df, engine q = inr df) →
  Forall (λ name, name ∈ keys) selected_checks →
  NoDup ((λ n, replace_space n +:+ ".csv") <$> selected_checks) →
  (∀ n, n ∈ selected_checks → replace_space n +:+ ".csv" ∉ made) →
  raised (run_loop_after engine made selected_checks) = None
  ∧ Some <$> submitted (run_loop_after engine made selected_checks)
    = (λ name, query <$> getitem checks name) <$> selected_checks.
Proof.
  intros Hans Hkeys. revert made.
  induction Hkeys as [|name rest Hname Hrest IH]; intros made Hnd Hfresh;
    [done|].
  destruct (getitem checks name) as [c|] eqn:Hc.
  2:{ by apply getitem_None in Hc. }
  destruct (Hans (query c)) as [df Hdf].
  assert (Hf : replace_space name +:+ ".csv" ∉ made)
    by apply Hfresh, list_elem_of_here.
  assert (Hr : raised (run_check_after engine made name) = None)
    by by rewrite (run_check_after_fresh made name c df).
  destruct (run_loop_after_cons made name rest Hr) as [-> ->].
  rewrite (submitted_run_check_after made name c Hc).
  rewrite (buttons_run_check_after_fresh made name c df) by done.
  destruct (IH (made ++ (if empty df then []
                         else [replace_space name +:+ ".csv"])))
    as [IH1 IH2].
  { rewrite fmap_cons in Hnd. by apply NoDup_cons in Hnd as [_ ?]. }
  { by apply fresh_after_turn. }
  split; [done|]. rewrite fmap_cons, Hc, <- IH2. done.
Qed.

Lemma run_loop_after_engine_errors_only (made selected_checks : list string)
    (e : exn) :
  Forall (λ name, name ∈ keys) selected_checks →
  NoDup ((λ n, replace_space n +:+ ".csv") <$> selected_checks) →
  (∀ n, n ∈ selected_checks → replace_space n +:+ ".csv" ∉ made) →
  raised (run_loop_after engine made selected_checks) = Some e →
  ∃ name c, name ∈ selected_checks ∧ getitem checks name = Some c
            ∧ engine (query c) = inl e.
Proof.
  intros Hkeys. revert made.
  induction Hkeys as [|name rest Hname Hrest IH]; intros made Hnd Hfresh;
    [done|].
  destruct (getitem checks name) as [c|] eqn:Hc.
  2:{ by apply getitem_None in Hc. }
  destruct (engine (query c)) as [e'|df] eqn:He.
  - cbn [run_loop_after].
    rewrite (run_check_after_failed made name c e' Hc He).
    cbn [raised]. intros [= ->]. exists name, c.
    split; [apply list_elem_of_here|done].
  - assert (Hf : replace_space name +:+ ".csv" ∉ made)
      by apply Hfresh, list_elem_of_here.
    assert (Hr : raised (run_check_after engine made name) = None)
      by by rewrite (run_check_after_fresh made name c df).
    destruct (run_loop_after_cons made name rest Hr) as [_ ->].
    rewrite (buttons_run_check_after_fresh made name c df) by done.
    intros Hraised.
    destruct (IH (made ++ (if empty df then []
                           else [replace_space name +:+ ".csv"])))
      as (name' & c' & Hin & Hc' & He'); [| |done|].
    { rewrite fmap_cons in Hnd. by apply NoDup_cons in Hnd as [_ ?]. }
    { by apply fresh_after_turn. }
    exists name', c'. split; [by apply list_elem_of_further|done].
Qed.

End Loop.

(** X10: when the selected names are keys of [checks], each selected once,
    as the multiselect gives them, and the engine answers every query, the
    loop ends without an exception and has submitted one query per selected
    name, in the order of the selection: the query of that rule. *)
Theorem X10_loop_all_answered (engine : Query → exn + DataFrame)
    (selected_checks : list string) :
  (∀ q, ∃ df, engine q = inr df) →
  Forall (λ name, name ∈ keys) selected_checks →
  NoDup selected_checks →
  raised (run_loop engine selected_checks) = None
  ∧ Some <$> submitted (run_loop engine selected_checks)
    = (λ name, query <$> getitem checks name) <$> selected_checks.
Proof.
  intros Hans Hkeys Hnd. apply run_loop_after_all_answered; [done..| |].
  - by apply NoDup_file_names.
  - intros n _ H. by apply elem_of_nil in H.
Qed.

Lemma X10_loop_all_answered_witness :
  raised (run_loop (engine_of [rowA; rowB])
            ["Priority Violation"; "Duplicate TRL Entries";
             "Extrapolated Rows with Rationale"]) = None
  ∧ Some <$> submitted (run_loop (engine_of [rowA; rowB])
                          ["Priority Violation"; "Duplicate TRL Entries";
                           "Extrapolated Rows with Rationale"])
    = (λ name, query <$> getitem checks name)
        <$> ["Priority Violation"; "Duplicate TRL Entries";
             "Extrapolated Rows with Rationale"].
Proof.
  apply (X10_loop_all_answered (engine_of [rowA; rowB])).
  - intros q. by eexists.
  - apply (bool_decide_unpack _). vm_compute. exact I.
  - apply (bool_decide_unpack _). vm_compute. exact I.
Defined.

(** A rule selected twice, with a result that has a row: the second download
    button is refused. *)
Example run_loop_rule_twice :
  raised (run_loop (engine_of [rowA; rowB])
            ["Priority Violation"; "Priority Violation"])
  = Some (StreamlitDuplicateElementId "Priority_Violation.csv")
  ∧ submitted (run_loop (engine_of [rowA; rowB])
                 ["Priority Violation"; "Priority Violation"])
    = [SelPriorityViolation; SelPriorityViolation].
Proof. split; reflexivity. Qed.

(** X11: a query the engine fails on ends the loop with that exception: it
    is the last query submitted, and the rules selected after it are not
    run. *)
Theorem X11_loop_engine_failure (engine : Query → exn + DataFrame)
    (pre rest : list string) (name : string) (c : Check) (e : exn) :
  raised (run_loop engine pre) = None →
  getitem checks name = Some c → engine (query c) = inl e →
  raised (run_loop engine (pre ++ name :: rest)) = Some e
  ∧ submitted (run_loop engine (pre ++ name :: rest))
    = submitted (run_loop engine pre) ++ [query c].
Proof.
  intros Hpre Hc He. unfold run_loop in *. rewrite run_loop_after_app by done.
  assert (Hloop : ∀ made, run_loop_after engine made (name :: rest)
                  = mkOutcome [st_subheader name; st_markdown (description c);
                               pd_read_sql (query c)] (Some e)).
  { intros made. simpl. by rewrite (run_check_after_failed engine made name c e). }
  rewrite Hloop. split; [done|]. unfold submitted. simpl.
  by rewrite omap_app.
Qed.

Lemma X11_loop_engine_failure_witness :
  raised (run_loop (engine_no_window [rowA])
            (["Duplicate TRL Entries"]
             ++ "Priority Violation" :: ["Invalid Backward Extrapolation"]))
  = Some DatabaseError
  ∧ submitted (run_loop (engine_no_window [rowA])
                 (["Duplicate TRL Entries"]
                  ++ "Priority Violation"
                       :: ["Invalid Backward Extrapolation"]))
    = submitted (run_loop (engine_no_window [rowA]) ["Duplicate TRL Entries"])
      ++ [SelPriorityViolation].
Proof.
  apply (X11_loop_engine_failure (engine_no_window [rowA])
           ["Duplicate TRL Entries"] ["Invalid Backward Extrapolation"]
           "Priority Violation"
           (mkCheck "Lower-priority TRL entries for same client/year."
                    SelPriorityViolation) DatabaseError).
  - reflexivity.
  - reflexivity.
  - reflexivity.
Defined.

(** ** The download button and its file name *)

(** X12: for a rule the engine answers, the download button is offered if
    and only if the result has a row, and its file name is the rule name
    with every space replaced by an underscore, followed by [.csv]. *)
Theorem X12_download_button (engine : Query → exn + DataFrame)
    (name : string) (c : Check) (df : DataFrame) (file_name : string) :
  getitem checks name = Some c → engine (query c) = inr df →
  st_download_button file_name ∈ calls (run_check engine name)
  ↔ len df ≠ 0%nat ∧ file_name = replace_space name +:+ ".csv".
Proof.
  intros Hc He. rewrite (run_check_answered engine name c df Hc He).
  cbn [calls]. rewrite elem_of_app. unfold empty. split.
  - intros [Hin|Hin].
    + repeat (apply elem_of_cons in Hin as [Hin|Hin]; [discriminate|]).
      by apply elem_of_nil in Hin.
    + case_bool_decide as Hlen; [by apply elem_of_nil in Hin|].
      apply list_elem_of_singleton in Hin. by injection Hin as ->.
  - intros [Hlen ->]. right. rewrite bool_decide_eq_false_2 by done.
    apply list_elem_of_here.
Qed.

Lemma X12_download_button_witness :
  st_download_button "Duplicate_TRL_Entries.csv"
    ∈ calls (run_check (engine_of [dup_a; dup_b]) "Duplicate TRL Entries")
  ↔ len (BaseRows [dup_a; dup_b]) ≠ 0%nat
    ∧ "Duplicate_TRL_Entries.csv"
      = replace_space "Duplicate TRL Entries" +:+ ".csv".
Proof.
  apply (X12_download_button (engine_of [dup_a; dup_b])
           "Duplicate TRL Entries"
           (mkCheck
              "Duplicate rows for the same client_id, reference_year, and trl_id."
              SelDuplicateTrlEntries)
           (BaseRows [dup_a; dup_b])).
  - reflexivity.
  - reflexivity.
Defined.

Section Collated14.

Context {col : Collation}.

(** X13: [replace_space] leaves no space in a name, keeps its length,
    changes no other character, and leaves a name without a space as it
    is. *)
Theorem X13_replace_space (s : string) :
  (" "%char ∉ String.list_ascii_of_string (replace_space s))
  ∧ String.length (replace_space s) = String.length s
  ∧ (∀ (i : nat) (ch : ascii),
       String.list_ascii_of_string s !! i = Some ch → ch ≠ " "%char →
       String.list_ascii_of_string (replace_space s) !! i = Some ch)
  ∧ (" "%char ∉ String.list_ascii_of_string s → replace_space s = s).
Proof.
  induction s as [|ch s (IH1 & IH2 & IH3 & IH4)].
  - repeat split; try done. intros H. by apply elem_of_nil in H.
  - cbn [replace_space String.list_ascii_of_string String.length].
    repeat split.
    + intros [Hh|Ht]%elem_of_cons; [|done]. by case_decide.
    + by rewrite IH2.
    + intros [|i] ch' Hi Hne; simpl in *.
      * injection Hi as ->. by rewrite decide_False.
      * by apply IH3.
    + intros [Hh Ht]%not_elem_of_cons.
      rewrite decide_False by done. by rewrite IH4.
Qed.

(** ** What the loop submits, whatever happens *)

(** X14: whatever the engine does and whatever is selected, the queries
    submitted are those of an initial part of the selection, one per name
    and in its order: the loop never runs a rule that was not selected, nor
    one that comes after a name it stopped at. *)
Theorem X14_submitted_prefix (engine : Query → exn + DataFrame)
    (selected_checks : list string) :
  ∃ n : nat,
    Some <$> submitted (run_loop engine selected_checks)
    = (λ name, query <$> getitem checks name) <$> take n selected_checks.
Proof.
  unfold run_loop. generalize (@nil string) as made.
  induction selected_checks as [|name rest IH]; intros made;
    [by exists 0%nat|].
  destruct (getitem checks name) as [c|] eqn:Hc.
  - pose proof (submitted_run_check_after engine made name c Hc) as Hsub.
    destruct (raised (run_check_after engine made name)) as [e|] eqn:Hr.
    + exists 1%nat. cbn [run_loop_after]. rewrite Hr, Hsub. cbn [take].
      rewrite take_0, !fmap_cons, Hc. done.
    + destruct (run_loop_after_cons engine made name rest Hr) as [-> _].
      destruct (IH (made ++ buttons (calls (run_check_after engine made name))))
        as [n IHn].
      exists (S n). rewrite Hsub. cbn [take].
      rewrite fmap_cons, Hc, <- IHn. done.
  - exists 0%nat. cbn [run_loop_after]. unfold run_check_after.
    by rewrite Hc.
Qed.

(** ** More on "Invalid Backward Extrapolation" *)

(** X15: whatever "Invalid Backward Extrapolation" returns holds, each as
    often as it occurs in the table, the rows whose year is the MIN of the
    years of their client, with [is_extrapolated = 1] and a [trl_id] other
    than 9: the join with [first_year] never repeats a row. *)
Theorem X15_backward_extrapolation_rows (co_trl : Table) (df : DataFrame) :
  query_rel SelInvalidBackwardExtrapolation co_trl df →
  rows_of df
  ≡ₚ filter (λ r, min_agg (reference_year
                             <$> group client_id co_trl (client_id r))
                  = Some (reference_year r)
                  ∧ is_extrapolated r = Some 1 ∧ trl_id r ≠ 9) co_trl.
Proof.
  intros (rows & Hp & ->). simpl.
  by rewrite Hp, invalid_backward_extrapolation_filter.
Qed.

End Collated14.

Lemma X15_backward_extrapolation_rows_witness :
  rows_of (run_query SelInvalidBackwardExtrapolation
             [client3_2021; client3_2020; client3_2020_again])
  ≡ₚ filter (λ r, min_agg (reference_year
                             <$> group client_id
                                   [client3_2021; client3_2020;
                                    client3_2020_again] (client_id r))
                  = Some (reference_year r)
                  ∧ is_extrapolated r = Some 1 ∧ trl_id r ≠ 9)
            [client3_2021; client3_2020; client3_2020_again].
Proof.
  apply (X15_backward_extrapolation_rows
           [client3_2021; client3_2020; client3_2020_again]).
  apply run_query_sound.
Defined.

(** X16: the rows "Invalid Backward Extrapolation" returns for one client
    all have the same year. *)
Theorem X16_backward_extrapolation_one_year (co_trl : Table) (r1 r2 : Row) :
  r1 ∈ invalid_backward_extrapolation co_trl →
  r2 ∈ invalid_backward_extrapolation co_trl →
  client_id r1 = client_id r2 → reference_year r1 = reference_year r2.
Proof.
  intros (Hin1 & Hmin1 & _)%elem_of_invalid_backward_extrapolation
         (Hin2 & Hmin2 & _)%elem_of_invalid_backward_extrapolation Hc.
  specialize (Hmin1 r2 Hin2 (eq_sym Hc)). specialize (Hmin2 r1 Hin1 Hc). lia.
Qed.

Lemma X16_backward_extrapolation_one_year_witness :
  reference_year client3_2020 = reference_year client3_2020_again.
Proof.
  apply (X16_backward_extrapolation_one_year
           [client3_2021; client3_2020; client3_2020_again]
           client3_2020 client3_2020_again).
  - vm_compute. apply list_elem_of_here.
  - vm_compute. apply list_elem_of_further, list_elem_of_here.
  - reflexivity.
Defined.

(** ** Selections drawn from the catalog *)

(** X17: with a selection drawn from the keys of [checks], each selected
    once, as the multiselect gives them, neither the lookup [checks[name]]
    nor a download button fails: an exception that ends the loop is one the
    engine raised on the query of a selected rule. *)
Theorem X17_known_names_engine_errors_only
    (engine : Query → exn + DataFrame) (selected_checks : list string)
    (e : exn) :
  Forall (λ name, name ∈ keys) selected_checks →
  NoDup selected_checks →
  raised (run_loop engine selected_checks) = Some e →
  ∃ name c, name ∈ selected_checks ∧ getitem checks name = Some c
            ∧ engine (query c) = inl e.
Proof.
  intros Hkeys Hnd.
  apply run_loop_after_engine_errors_only; [done| |].
  - by apply NoDup_file_names.
  - intros n _ H. by apply elem_of_nil in H.
Qed.

Lemma X17_known_names_engine_errors_only_witness :
  ∃ name c, name ∈ ["Duplicate TRL Entries"; "Priority Violation"]
            ∧ getitem checks name = Some c
            ∧ engine_no_window [rowA] (query c) = inl DatabaseError.
Proof.
  apply (X17_known_names_engine_errors_only (engine_no_window [rowA])
           ["Duplicate TRL Entries"; "Priority Violation"] DatabaseError).
  - apply (bool_decide_unpack _). vm_compute. exact I.
  - apply (bool_decide_unpack _). vm_compute. exact I.
  - reflexivity.
Defined.
